(** * A shallow embedding of the PostgreSQL MCP server (src/main.py)

    The server is a thin layer over the psycopg driver: it resolves a
    connection target from the environment, checks that a query looks
    read-only, runs statements through a cursor and shapes the rows into
    dictionaries.  This development models

    - Python's [str] as a sequence of Unicode code points, with the builtins
      the server calls ([strip], [upper], [startswith], [replace]);
    - Python values, dictionaries (insertion-ordered) and exceptions;
    - the driver as an interface: a server state stepped by [execute],
      and a database that reads the SQL text of the catalog statements;
    - the four tools and the connection set-up of [database_lifespan]
      as functions in a state-and-exception monad;

    and proves the properties of the specification about them. *)

From Stdlib Require Import List ZArith NArith Lia Bool String Ascii.
From Stdlib Require Import Sorted Permutation.
Import ListNotations.

Set Warnings "-register-all".

(* ================================================================= *)
(** ** Python strings *)

Module Py.

(** A Python [str] is a sequence of code points. *)
Definition str := list N.

(** ASCII literals of the source, written as Rocq strings. *)
Definition lit (s : string) : str := map N_of_ascii (list_ascii_of_string s).
Arguments lit s%_string.

(** [a == b] *)
Fixpoint str_eqb (a b : str) : bool :=
  match a, b with
  | [], [] => true
  | x :: a', y :: b' => (x =? y)%N && str_eqb a' b'
  | _, _ => false
  end.

(** [str.isspace] for one code point: the characters [str.strip()]
    removes when called without argument. *)
Definition isspace (c : N) : bool :=
  ((9 <=? c) && (c <=? 13) || (28 <=? c) && (c <=? 32)
   || (c =? 133) || (c =? 160) || (c =? 5760)
   || (8192 <=? c) && (c <=? 8202)
   || (c =? 8232) || (c =? 8233) || (c =? 8239) || (c =? 8287)
   || (c =? 12288))%N.

Fixpoint lstrip (s : str) : str :=
  match s with
  | c :: t => if isspace c then lstrip t else s
  | [] => []
  end.

Definition rstrip (s : str) : str := rev (lstrip (rev s)).

(** [s.strip()] *)
Definition strip (s : str) : str := rstrip (lstrip s).

(** The uppercase form of one ASCII character. *)
Definition ascii_upper (c : N) : N :=
  if ((97 <=? c) && (c <=? 122))%N then (c - 32)%N else c.

(** The uppercase mapping.  Python's [str.upper] maps every code point
    through the full Unicode uppercase mapping and concatenates the
    results (one code point may become several).  On ASCII the mapping is
    fixed: a..z go to A..Z and nothing else moves.  Outside ASCII it is
    the table of the interpreter's Unicode database, which is not part of
    this repository: it is taken as a parameter. *)
Class Unicode := { upper_ext : N -> str }.

Definition upper_char {U : Unicode} (c : N) : str :=
  if ((97 <=? c) && (c <=? 122))%N then [(c - 32)%N]
  else if (c <? 128)%N then [c]
  else upper_ext c.

(** [s.upper()] *)
Definition upper {U : Unicode} (s : str) : str := flat_map upper_char s.

(** [s.startswith(prefix)] *)
Fixpoint startswith (s prefix : str) : bool :=
  match prefix, s with
  | [], _ => true
  | p :: prefix', c :: s' => (c =? p)%N && startswith s' prefix'
  | _ :: _, [] => false
  end.

(** [s.replace(old, new)] for a non-empty [old]: scan from the left; where
    [old] starts, emit [new] and jump over the match; elsewhere copy one
    character.  [skip] counts the characters of a match still to jump. *)
Fixpoint replace_from (old new : str) (skip : nat) (s : str) : str :=
  match s with
  | [] => []
  | c :: t =>
      match skip with
      | S k => replace_from old new k t
      | O => if startswith s old
             then new ++ replace_from old new (List.length old - 1) t
             else c :: replace_from old new 0 t
      end
  end.

Definition replace (s old new : str) : str := replace_from old new 0 s.

(** Lexicographic comparison of strings by code point ([a <= b]). *)
Fixpoint str_leb (a b : str) : bool :=
  match a, b with
  | [], _ => true
  | _ :: _, [] => false
  | x :: a', y :: b' => (x <? y)%N || ((x =? y)%N && str_leb a' b')
  end.

(* ----------------------------------------------------------------- *)
(** *** Values, dictionaries, exceptions *)

(** The values that occur in rows and in the tools' results.  A [dict]
    keeps insertion order, so it is an association list. *)
Inductive value :=
| VNone
| VBool (b : bool)
| VInt (z : Z)
| VStr (s : str)
| VList (l : list value)
| VDict (d : list (str * value)).

Definition dict := list (str * value).

(** [d[key]] as an option; [None] is Python's [KeyError]. *)
Fixpoint dict_get (d : dict) (key : str) : option value :=
  match d with
  | [] => None
  | (k, v) :: d' => if str_eqb k key then Some v else dict_get d' key
  end.

(** [list(d.keys())] *)
Definition keys (d : dict) : list value := map (fun kv => VStr (fst kv)) d.

(** [len(l)] *)
Definition len {A} (l : list A) : value := VInt (Z.of_nat (List.length l)).

(** The classes of the exceptions that occur.  [OtherError] stands for
    any further subclass of [Exception]; [CancelledError],
    [KeyboardInterrupt] and [SystemExit] derive from [BaseException]
    alone. *)
Inductive exn_class :=
| ValueError | RuntimeError | KeyError
| OperationalError | ProgrammingError | OtherError
| CancelledError | KeyboardInterrupt | SystemExit.

(** [issubclass(c, Exception)]: what an [except Exception] clause
    catches. *)
Definition is_exception (c : exn_class) : bool :=
  match c with
  | CancelledError | KeyboardInterrupt | SystemExit => false
  | _ => true
  end.

Record exn := Exn { exn_class_of : exn_class; exn_msg : str }.

Inductive result (A : Type) :=
| Return (a : A)
| Raise (e : exn).
Arguments Return {A} a.
Arguments Raise {A} e.

End Py.
Import Py.

(* ================================================================= *)
(** ** The psycopg driver, as far as the server uses it *)

Module Psycopg.

(** [psycopg.sql]: composable SQL fragments. *)
Inductive composable :=
| SQL (s : str)
| Identifier (name : str)
| Composed (parts : list composable).

(** What [cursor.execute] accepts as a statement: a plain string or a
    composable. *)
Inductive query :=
| QStr (s : str)
| QSql (c : composable).

(** One call of [cursor.execute]: the statement and the parameter tuple,
    if one was given. *)
Definition call := (query * option (list value))%type.

(** Rows are produced by [dict_row]: column name to value. *)
Definition row := dict.

(** How [cursor.execute] can end: the driver raises, or the statement
    completes; a completed statement carries a result set ([Some rows])
    or none ([None], as after a command without rows). *)
Inductive exec_outcome :=
| ExecRaises (e : exn)
| ExecDone (result_set : option (list row)).

(** How [AsyncConnection.connect] can end.  The server tests the returned
    connection against [None], so the returned value is optional. *)
Inductive connect_outcome (S : Type) :=
| ConnectRaises (e : exn)
| ConnectReturns (c : option S).
Arguments ConnectRaises {S} e.
Arguments ConnectReturns {S} c.

(** The database behind the driver: a state, how a statement steps it,
    and what connecting to a target gives. *)
Class Driver := {
  ServerState : Type;
  pg_execute : ServerState -> query -> option (list value)
               -> ServerState * exec_outcome;
  pg_connect : str -> connect_outcome ServerState
}.

(** A connection: the server state reached, whether the connection was
    closed, and every statement sent through it so far. *)
Record Connection {D : Driver} := {
  server : ServerState;
  closed : bool;
  sent : list call
}.

Inductive level := INFO | ERROR.

Record LogRecord := { log_level : level; log_msg : str }.

(** What a tool can touch: the shared connection of the lifespan context
    and the module's logger. *)
Record World {D : Driver} := {
  db : Connection;
  logged : list LogRecord
}.

(** Computations that read and update the world and may raise. *)
Definition M {D : Driver} (A : Type) : Type := World -> World * result A.

Definition ret {D : Driver} {A} (a : A) : M A := fun w => (w, Return a).

Definition raise {D : Driver} {A} (e : exn) : M A := fun w => (w, Raise e).

Definition bind {D : Driver} {A B} (m : M A) (k : A -> M B) : M B :=
  fun w =>
    match m w with
    | (w', Return a) => k a w'
    | (w', Raise e) => (w', Raise e)
    end.

(** [try: m  except Exception: logger.exception(msg); raise]: an
    exception that is no [Exception] passes through unlogged. *)
Definition try_log {D : Driver} {A} (m : M A) (msg : str) : M A :=
  fun w =>
    match m w with
    | (w', Return a) => (w', Return a)
    | (w', Raise e) =>
        if is_exception (exn_class_of e)
        then ({| db := db w';
                 logged := logged w' ++ [{| log_level := ERROR; log_msg := msg |}] |},
              Raise e)
        else (w', Raise e)
    end.

(** [db.cursor()]: refused on a closed connection. *)
Definition cursor {D : Driver} : M unit :=
  fun w =>
    if closed (db w)
    then (w, Raise (Exn OperationalError (lit "the connection is closed")))
    else (w, Return tt).

(** [await cur.execute(q, params)]: the statement is recorded as sent and
    the server steps. *)
Definition execute {D : Driver} (q : query) (params : option (list value))
  : M (option (list row)) :=
  fun w =>
    let c := db w in
    let '(s', out) := pg_execute (server c) q params in
    let w' := {| db := {| server := s'; closed := closed c;
                          sent := sent c ++ [(q, params)] |};
                 logged := logged w |} in
    match out with
    | ExecRaises e => (w', Raise e)
    | ExecDone r => (w', Return r)
    end.

Definition no_result : exn :=
  Exn ProgrammingError (lit "the last operation didn't produce a result").

(** [await cur.fetchall()] *)
Definition fetchall {D : Driver} (r : option (list row)) : M (list row) :=
  match r with
  | Some rows => ret rows
  | None => raise no_result
  end.

(** [await cur.fetchone()] *)
Definition fetchone {D : Driver} (r : option (list row)) : M (option row) :=
  match r with
  | Some [] => ret None
  | Some (x :: _) => ret (Some x)
  | None => raise no_result
  end.

End Psycopg.
Import Psycopg.

Notation "x <- m ;; k" := (bind m (fun x => k))
  (at level 61, m at next level, right associativity).
Notation "m ;;; k" := (bind m (fun _ => k))
  (at level 61, right associativity).

(* ================================================================= *)
(** ** The server: src/main.py *)

Module Main.

Section Lifespan.
Context {D : Driver}.

(** The process environment, [os.environ]. *)
Definition environ := list (str * str).

(** [os.getenv(name)] *)
Fixpoint getenv (env : environ) (name : str) : option str :=
  match env with
  | [] => None
  | (k, v) :: env' => if str_eqb k name then Some v else getenv env' name
  end.

(** [os.getenv(name, default)] *)
Definition getenv_default (env : environ) (name default : str) : str :=
  match getenv env name with
  | Some v => v
  | None => default
  end.

(** How an f-string renders the result of [os.getenv(name)]. *)
Definition fmt_opt (o : option str) : str :=
  match o with
  | Some v => v
  | None => lit "None"
  end.

(** What the connection set-up does that can be seen from outside. *)
Inductive event :=
| Log (r : LogRecord)
| Connect (conninfo : str)
| Close.

Definition info (msg : str) : event := Log {| log_level := INFO; log_msg := msg |}.
Definition error (msg : str) : event := Log {| log_level := ERROR; log_msg := msg |}.

Record DatabaseContext := { conn : Connection }.

Definition sqlalchemy_prefix : str := lit "postgresql+psycopg://".
Definition canonical_prefix : str := lit "postgresql://".

Definition password_required : exn :=
  Exn ValueError
    (lit "DATABASE_PASSWORD is required. Set DATABASE_PASSWORD or DATABASE_URL in .env file").

(** Lines 49-70 of [database_lifespan]: the connection target.
    [if not database_url] holds when the variable is unset or empty. *)
Definition resolve_database_url (env : environ) : list event * result str :=
  match getenv env (lit "DATABASE_URL") with
  | Some (c :: u) =>
      ([], Return (replace (c :: u) sqlalchemy_prefix canonical_prefix))
  | _ =>
      let db_host := getenv_default env (lit "DATABASE_HOST") (lit "localhost") in
      let db_user := getenv_default env (lit "DATABASE_USER") (lit "postgres") in
      let db_password := getenv_default env (lit "DATABASE_PASSWORD") [] in
      let db_port := getenv_default env (lit "DATABASE_PORT") (lit "5432") in
      let db_name := getenv_default env (lit "DATABASE_NAME") (lit "postgres") in
      match db_password with
      | [] => ([], Raise password_required)
      | _ :: _ =>
          ([info (lit "Constructed database URL from individual components")],
           Return (lit "postgresql://" ++ db_user ++ lit ":" ++ db_password
                   ++ lit "@" ++ db_host ++ lit ":" ++ db_port
                   ++ lit "/" ++ db_name))
      end
  end.

Definition connecting_msg (env : environ) : str :=
  lit "Connecting to PostgreSQL database at "
  ++ fmt_opt (getenv env (lit "DATABASE_HOST")) ++ lit ":"
  ++ fmt_opt (getenv env (lit "DATABASE_PORT")) ++ lit "/"
  ++ fmt_opt (getenv env (lit "DATABASE_NAME")) ++ lit "...".

(** The two [except] clauses, [psycopg.OperationalError] and [Exception]:
    log by class of the exception, re-raise.  An exception that is no
    [Exception] is caught by neither and leaves no record. *)
Definition connection_error (e : exn) : list event :=
  match exn_class_of e with
  | OperationalError => [error (lit "Database connection error: " ++ exn_msg e)]
  | c =>
      if is_exception c
      then [error (lit "Unexpected error during database connection: " ++ exn_msg e)]
      else []
  end.

Definition connect_failed : exn :=
  Exn RuntimeError (lit "Failed to establish database connection").

(** [database_lifespan] up to its [yield]: the events in order and either
    the context handed to the server or the exception that ends set-up.
    When set-up raises, [conn] is still [None] and [finally] closes
    nothing. *)
Definition database_lifespan_enter (env : environ)
  : list event * result DatabaseContext :=
  match resolve_database_url env with
  | (ev, Raise e) => (ev, Raise e)
  | (ev, Return database_url) =>
      let ev := ev ++ [info (connecting_msg env); Connect database_url] in
      match pg_connect database_url with
      | ConnectRaises e => (ev ++ connection_error e, Raise e)
      | ConnectReturns None =>
          (ev ++ connection_error connect_failed, Raise connect_failed)
      | ConnectReturns (Some s) =>
          (ev ++ [info (10003%N :: lit " Connected to PostgreSQL database successfully")],
           Return {| conn := {| server := s; closed := false; sent := [] |} |})
      end
  end.

(** [database_lifespan] after its [yield]: an exception of the body is
    logged, if an [except] clause catches it, and re-raised; in every case
    the connection is closed. *)
Definition database_lifespan_exit (body : result unit)
  : list event * result unit :=
  let closing := [Close; info (lit "Database connection closed")] in
  match body with
  | Return tt => (closing, Return tt)
  | Raise e => (connection_error e ++ closing, Raise e)
  end.

(** [async with database_lifespan(server) as ctx: body]: set-up, then the
    body with the context, then the part after the [yield]; when set-up
    raises, the body does not run. *)
Definition database_lifespan (env : environ)
    (body : DatabaseContext -> result unit) : list event * result unit :=
  match database_lifespan_enter env with
  | (ev, Raise e) => (ev, Raise e)
  | (ev, Return ctx) =>
      let '(ev', r) := database_lifespan_exit (body ctx) in
      (ev ++ ev', r)
  end.

End Lifespan.

Section Tools.
Context {U : Unicode} {D : Driver}.

Definition list_tables_query : str := lit "
        SELECT table_name, table_type
        FROM information_schema.tables
        WHERE table_schema = 'public'
        ORDER BY table_name;
    ".

(** [list_tables(ctx)] *)
Definition list_tables : M dict :=
  try_log
    (cursor ;;;
     r <- execute (QStr list_tables_query) None ;;
     tables <- fetchall r ;;
     ret [(lit "tables", VList (map VDict tables));
          (lit "count", len tables)])
    (lit "Failed to list tables").

Definition table_schema_query : str := lit "
        SELECT
            column_name,
            data_type,
            character_maximum_length,
            is_nullable,
            column_default
        FROM information_schema.columns
        WHERE table_schema = 'public' AND table_name = %s
        ORDER BY ordinal_position;
    ".

(** [get_table_schema(table_name, ctx)] *)
Definition get_table_schema (table_name : str) : M dict :=
  try_log
    (cursor ;;;
     r <- execute (QStr table_schema_query) (Some [VStr table_name]) ;;
     columns <- fetchall r ;;
     match columns with
     | [] =>
         ret [(lit "error", VStr (lit "Table '" ++ table_name ++ lit "' not found"));
              (lit "table_name", VStr table_name);
              (lit "columns", VList [])]
     | _ :: _ =>
         ret [(lit "table_name", VStr table_name);
              (lit "columns", VList (map VDict columns));
              (lit "column_count", len columns)]
     end)
    (lit "Failed to get table schema for " ++ table_name).

(** The prefixes of the read-only check, in the order of the source. *)
Definition read_only_prefixes : list str :=
  [lit "SELECT"; lit "WITH"; lit "SHOW"].

(** [any(query_upper.startswith(prefix) for prefix in (...))] with
    [query_upper = query.strip().upper()] *)
Definition is_read_only (query : str) : bool :=
  let query_upper := upper (strip query) in
  existsb (fun prefix => startswith query_upper prefix) read_only_prefixes.

Definition rejection : dict :=
  [(lit "error", VStr (lit "Only SELECT, WITH, and SHOW queries are allowed"));
   (lit "rows", VList []);
   (lit "row_count", VInt 0)].

(** [execute_query(query, ctx)] *)
Definition execute_query (query : str) : M dict :=
  if negb (is_read_only query) then ret rejection
  else
    try_log
      (cursor ;;;
       r <- execute (QSql (SQL query)) None ;;
       rows <- fetchall r ;;
       ret [(lit "rows", VList (map VDict rows));
            (lit "row_count", len rows);
            (lit "columns", VList (match rows with
                                   | r0 :: _ => keys r0
                                   | [] => []
                                   end))])
      (lit "Failed to execute query").

(** [r[key] if r else default] for [r] the result of [fetchone]: [None]
    and an empty mapping are both false; a missing key raises. *)
Definition item_or (r : option row) (key : str) (default : value) : M value :=
  match r with
  | Some (kv :: d) =>
      match dict_get (kv :: d) key with
      | Some v => ret v
      | None => raise (Exn KeyError (lit "'" ++ key ++ lit "'"))
      end
  | _ => ret default
  end.

(** [sql.SQL("SELECT COUNT( * ) as count FROM {}").format(sql.Identifier(table_name))] *)
Definition count_query (table_name : str) : query :=
  QSql (Composed [SQL (lit "SELECT COUNT(*) as count FROM ");
                  Identifier table_name]).

Definition size_query : query := QSql (SQL (lit "
                SELECT
                    pg_size_pretty(pg_total_relation_size(%s)) as total_size,
                    pg_size_pretty(pg_relation_size(%s)) as table_size,
                    pg_size_pretty(pg_indexes_size(%s)) as indexes_size
                ")).

(** [get_table_stats(table_name, ctx)] *)
Definition get_table_stats (table_name : str) : M dict :=
  try_log
    (cursor ;;;
     r <- execute (count_query table_name) None ;;
     count_result <- fetchone r ;;
     row_count <- item_or count_result (lit "count") (VInt 0) ;;
     cursor ;;;
     r <- execute size_query
            (Some [VStr table_name; VStr table_name; VStr table_name]) ;;
     size_result <- fetchone r ;;
     total_size <- item_or size_result (lit "total_size") (VStr (lit "Unknown")) ;;
     table_size <- item_or size_result (lit "table_size") (VStr (lit "Unknown")) ;;
     indexes_size <- item_or size_result (lit "indexes_size") (VStr (lit "Unknown")) ;;
     ret [(lit "table_name", VStr table_name);
          (lit "row_count", row_count);
          (lit "total_size", total_size);
          (lit "table_size", table_size);
          (lit "indexes_size", indexes_size)])
    (lit "Failed to get table stats for " ++ table_name).

(** [analyze_table(table_name)]: the prompt text around the name. *)
Definition analyze_table (table_name : str) : str :=
  lit "Please analyze the table '" ++ table_name ++ lit "' in the database.

1. First, get the table schema to understand its structure
2. Get table statistics to understand its size and distribution
3. Examine a sample of rows to understand the data
4. Provide insights about:
   - Data quality
   - Potential issues or anomalies
   - Interesting patterns or trends
   - Suggestions for optimization

Use the available tools to gather this information.".

End Tools.

End Main.
Import Main.

(* ================================================================= *)
(** ** The SQL of the catalog queries *)

(** The two catalog tools leave filtering and ordering to the database:
    what they return is decided by the text of their statements.  To say
    what that text asks for, the statements are read as SQL: a lexer and
    a parser for [SELECT columns FROM relation WHERE column = operand AND
    ... ORDER BY column], the form both statements have. *)
Module Sql.

Inductive token :=
| TWord (w : str)
| TString (s : str)
| TParam
| TComma
| TEq
| TSemi.

(** Letters, digits, underscore and the dot of a qualified name. *)
Definition is_word_char (c : N) : bool :=
  ((48 <=? c) && (c <=? 57) || (65 <=? c) && (c <=? 90)
   || (97 <=? c) && (c <=? 122) || (c =? 95) || (c =? 46))%N.

(** What the lexer is in the middle of: nothing, a word, a quoted string,
    or a placeholder after its percent sign.  Accumulators are
    reversed. *)
Inductive lex_state :=
| LNone
| LWord (acc : str)
| LString (acc : str)
| LPercent.

(** One character read while no token is open; [k] lexes the rest of the
    text from a given state. *)
Definition lex_start (c : N) (k : lex_state -> option (list token))
  : option (list token) :=
  if isspace c then k LNone
  else if (c =? 44)%N then option_map (cons TComma) (k LNone)
  else if (c =? 59)%N then option_map (cons TSemi) (k LNone)
  else if (c =? 61)%N then option_map (cons TEq) (k LNone)
  else if (c =? 39)%N then k (LString [])
  else if (c =? 37)%N then k LPercent
  else if is_word_char c then k (LWord [c])
  else None.

Fixpoint lex (st : lex_state) (s : str) : option (list token) :=
  match s with
  | [] =>
      match st with
      | LNone => Some []
      | LWord acc => Some [TWord (rev acc)]
      | LString _ | LPercent => None
      end
  | c :: t =>
      match st with
      | LNone => lex_start c (fun st' => lex st' t)
      | LWord acc =>
          if is_word_char c then lex (LWord (c :: acc)) t
          else option_map (cons (TWord (rev acc)))
                 (lex_start c (fun st' => lex st' t))
      | LString acc =>
          if (c =? 39)%N then option_map (cons (TString (rev acc))) (lex LNone t)
          else lex (LString (c :: acc)) t
      | LPercent =>
          if (c =? 115)%N then option_map (cons TParam) (lex LNone t) else None
      end
  end.

(** Keywords are recognised in any letter case. *)
Definition is_kw (kw : string) (w : str) : bool :=
  str_eqb (map ascii_upper w) (lit kw).

(** The right-hand side of a comparison: a string literal or a [%s]
    placeholder. *)
Inductive operand :=
| OLit (s : str)
| OParam.

Record select := {
  sel_columns : list str;
  sel_from : str;
  sel_where : list (str * operand);
  sel_order : option str
}.

Fixpoint parse_columns (ts : list token) : option (list str * list token) :=
  match ts with
  | TWord w :: TComma :: rest =>
      match parse_columns rest with
      | Some (ws, rest') => Some (w :: ws, rest')
      | None => None
      end
  | TWord w :: rest => Some ([w], rest)
  | _ => None
  end.

Definition parse_operand (t : token) : option operand :=
  match t with
  | TString v => Some (OLit v)
  | TParam => Some OParam
  | _ => None
  end.

Fixpoint parse_conditions (ts : list token)
  : option (list (str * operand) * list token) :=
  match ts with
  | TWord col :: TEq :: o :: rest =>
      match parse_operand o with
      | None => None
      | Some op =>
          match rest with
          | TWord w :: rest' =>
              if is_kw "AND" w
              then match parse_conditions rest' with
                   | Some (cs, r) => Some ((col, op) :: cs, r)
                   | None => None
                   end
              else Some ([(col, op)], rest)
          | _ => Some ([(col, op)], rest)
          end
      end
  | _ => None
  end.

(** After the conditions: an optional [ORDER BY column], an optional
    semicolon, and nothing more. *)
Definition parse_tail (ts : list token) : option (option str) :=
  match ts with
  | [] | [TSemi] => Some None
  | TWord o :: TWord b :: TWord col :: rest =>
      if is_kw "ORDER" o && is_kw "BY" b
      then match rest with
           | [] | [TSemi] => Some (Some col)
           | _ => None
           end
      else None
  | _ => None
  end.

Definition parse_select (ts : list token) : option select :=
  match ts with
  | TWord s :: ts1 =>
      if is_kw "SELECT" s
      then match parse_columns ts1 with
           | Some (cols, TWord f :: TWord rel :: ts2) =>
               if is_kw "FROM" f
               then match ts2 with
                    | TWord w :: ts3 =>
                        if is_kw "WHERE" w
                        then match parse_conditions ts3 with
                             | Some (cs, ts4) =>
                                 option_map (Build_select cols rel cs) (parse_tail ts4)
                             | None => None
                             end
                        else option_map (Build_select cols rel []) (parse_tail ts2)
                    | _ => option_map (Build_select cols rel []) (parse_tail ts2)
                    end
               else None
           | _ => None
           end
      else None
  | _ => None
  end.

Definition parse (text : str) : option select :=
  match lex LNone text with
  | Some ts => parse_select ts
  | None => None
  end.

End Sql.
Import Sql.

(* ================================================================= *)
(** ** The catalog behind the two catalog queries *)

Module Catalog.

(** A row of [information_schema.tables]. *)
Record table_entry := {
  table_schema : str;
  table_name : str;
  table_type : str
}.

(** A row of [information_schema.columns]. *)
Record column_entry := {
  column_schema : str;
  column_table : str;
  ordinal_position : Z;
  column_name : str;
  data_type : str;
  character_maximum_length : option Z;
  is_nullable : str;
  column_default : option str
}.

Record catalog := {
  tables : list table_entry;
  columns : list column_entry
}.

(** [ORDER BY]: insertion of each row into the rows already ordered. *)
Fixpoint insert_by {A} (leb : A -> A -> bool) (x : A) (l : list A) : list A :=
  match l with
  | [] => [x]
  | y :: l' => if leb x y then x :: l else y :: insert_by leb x l'
  end.

Fixpoint order_by {A} (leb : A -> A -> bool) (l : list A) : list A :=
  match l with
  | [] => []
  | x :: l' => insert_by leb x (order_by leb l')
  end.

Definition in_public (schema : str) : bool := str_eqb schema (lit "public").

(** [table_name] has the byte-wise collation of identifiers: names
    compare by code point. *)
Definition by_table_name (a b : table_entry) : bool :=
  str_leb (table_name a) (table_name b).

Definition table_row (t : table_entry) : row :=
  [(lit "table_name", VStr (table_name t));
   (lit "table_type", VStr (table_type t))].

(** [SELECT table_name, table_type FROM information_schema.tables
     WHERE table_schema = 'public' ORDER BY table_name] *)
Definition select_tables (c : catalog) : list row :=
  map table_row
    (order_by by_table_name
       (filter (fun t => in_public (table_schema t)) (tables c))).

Definition by_ordinal_position (a b : column_entry) : bool :=
  (ordinal_position a <=? ordinal_position b)%Z.

Definition opt_value {A} (f : A -> value) (o : option A) : value :=
  match o with
  | Some a => f a
  | None => VNone
  end.

Definition column_row (c : column_entry) : row :=
  [(lit "column_name", VStr (column_name c));
   (lit "data_type", VStr (data_type c));
   (lit "character_maximum_length", opt_value VInt (character_maximum_length c));
   (lit "is_nullable", VStr (is_nullable c));
   (lit "column_default", opt_value VStr (column_default c))].

(** [SELECT ... FROM information_schema.columns
     WHERE table_schema = 'public' AND table_name = %s
     ORDER BY ordinal_position] *)
Definition select_columns (c : catalog) (name : str) : list row :=
  map column_row
    (order_by by_ordinal_position
       (filter (fun col => in_public (column_schema col)
                           && str_eqb (column_table col) name)
          (columns c))).

(** A relation: its column names and its tuples. *)
Record relation := {
  rel_columns : list str;
  rel_tuples : list (list value)
}.

(** [information_schema.tables], as far as the statements read it. *)
Definition tables_view (c : catalog) : relation := {|
  rel_columns := [lit "table_schema"; lit "table_name"; lit "table_type"];
  rel_tuples :=
    map (fun t => [VStr (table_schema t); VStr (table_name t); VStr (table_type t)])
      (tables c)
|}.

(** [information_schema.columns], as far as the statements read it. *)
Definition columns_view (c : catalog) : relation := {|
  rel_columns :=
    [lit "table_schema"; lit "table_name"; lit "ordinal_position";
     lit "column_name"; lit "data_type"; lit "character_maximum_length";
     lit "is_nullable"; lit "column_default"];
  rel_tuples :=
    map (fun col =>
           [VStr (column_schema col); VStr (column_table col);
            VInt (ordinal_position col); VStr (column_name col);
            VStr (data_type col);
            opt_value VInt (character_maximum_length col);
            VStr (is_nullable col);
            opt_value VStr (column_default col)])
      (columns c)
|}.

Definition relation_of (c : catalog) (name : str) : option relation :=
  if str_eqb name (lit "information_schema.tables") then Some (tables_view c)
  else if str_eqb name (lit "information_schema.columns") then Some (columns_view c)
  else None.

Fixpoint index_of (name : str) (cols : list str) : option nat :=
  match cols with
  | [] => None
  | c :: cols' =>
      if str_eqb c name then Some 0
      else option_map S (index_of name cols')
  end.

Fixpoint indexes_of (names cols : list str) : option (list nat) :=
  match names with
  | [] => Some []
  | n :: names' =>
      match index_of n cols, indexes_of names' cols with
      | Some i, Some others => Some (i :: others)
      | _, _ => None
      end
  end.

(** The comparisons of [WHERE], with the placeholders bound to the
    parameters from left to right; too few or too many parameters are an
    error. *)
Fixpoint bind_params (cs : list (str * operand)) (params : list value)
  : option (list (str * value)) :=
  match cs with
  | [] =>
      match params with
      | [] => Some []
      | _ :: _ => None
      end
  | (col, OLit v) :: cs' =>
      option_map (cons (col, VStr v)) (bind_params cs' params)
  | (col, OParam) :: cs' =>
      match params with
      | p :: ps => option_map (cons (col, p)) (bind_params cs' ps)
      | [] => None
      end
  end.

Fixpoint resolve_conditions (cs : list (str * value)) (cols : list str)
  : option (list (nat * value)) :=
  match cs with
  | [] => Some []
  | (col, v) :: cs' =>
      match index_of col cols, resolve_conditions cs' cols with
      | Some i, Some r => Some ((i, v) :: r)
      | _, _ => None
      end
  end.

(** [a = b] in SQL: never true of a NULL. *)
Definition sql_eqb (a b : value) : bool :=
  match a, b with
  | VStr x, VStr y => str_eqb x y
  | VInt x, VInt y => (x =? y)%Z
  | VBool x, VBool y => Bool.eqb x y
  | _, _ => false
  end.

Definition value_rank (v : value) : nat :=
  match v with
  | VBool _ => 0
  | VInt _ => 1
  | VStr _ => 2
  | VList _ => 3
  | VDict _ => 4
  | VNone => 5
  end.

(** The ascending order of [ORDER BY]: numbers by value, strings by code
    point, NULL last. *)
Definition value_leb (a b : value) : bool :=
  match a, b with
  | VInt x, VInt y => (x <=? y)%Z
  | VStr x, VStr y => str_leb x y
  | VBool x, VBool y => implb x y
  | _, _ => (value_rank a <=? value_rank b)%nat
  end.

Definition field (i : nat) (t : list value) : value := nth i t VNone.

(** Running a parsed statement: the tuples of the relation that satisfy
    every comparison, ordered by the [ORDER BY] column if there is one,
    each cut down to the selected columns and returned, as [dict_row]
    does, as a mapping from the selected names.  An unknown relation or
    column and a wrong number of parameters give no result. *)
Definition run_select (c : catalog) (q : select) (params : list value)
  : option (list row) :=
  match relation_of c (sel_from q) with
  | None => None
  | Some r =>
      match bind_params (sel_where q) params with
      | None => None
      | Some bound =>
          match resolve_conditions bound (rel_columns r),
                indexes_of (sel_columns q) (rel_columns r),
                match sel_order q with
                | Some col => option_map Some (index_of col (rel_columns r))
                | None => Some None
                end
          with
          | Some conds, Some picked, Some order =>
              let kept :=
                filter (fun t => forallb (fun iv => sql_eqb (field (fst iv) t) (snd iv))
                                   conds)
                  (rel_tuples r) in
              let sorted :=
                match order with
                | Some i => order_by (fun a b => value_leb (field i a) (field i b)) kept
                | None => kept
                end in
              Some (map (fun t => combine (sel_columns q)
                                    (map (fun i => field i t) picked))
                      sorted)
          | _, _, _ => None
          end
      end
  end.

(** The text of a statement, when it is given as text. *)
Definition statement_text (q : query) : option str :=
  match q with
  | QStr s => Some s
  | QSql (SQL s) => Some s
  | QSql _ => None
  end.

Definition unsupported : exec_outcome :=
  ExecRaises (Exn OtherError (lit "statement outside the catalog model")).

Definition syntax_error : exec_outcome :=
  ExecRaises (Exn ProgrammingError (lit "syntax error")).

Definition undefined_object : exec_outcome :=
  ExecRaises (Exn ProgrammingError (lit "undefined relation, column or parameter")).

(** A database that holds a catalog and answers a statement by reading
    its text: the statement is parsed and run over the catalog's
    relations.  The catalog itself never changes. *)
Definition catalog_driver (initial : catalog) : Driver := {|
  ServerState := catalog;
  pg_execute c q params :=
    match statement_text q with
    | None => (c, unsupported)
    | Some text =>
        match parse text with
        | None => (c, syntax_error)
        | Some sel =>
            match run_select c sel (match params with Some ps => ps | None => [] end) with
            | Some rows => (c, ExecDone (Some rows))
            | None => (c, undefined_object)
            end
        end
    end;
  pg_connect _ := ConnectReturns (Some initial)
|}.

End Catalog.
Import Catalog.

(* ================================================================= *)
(** ** Test doubles *)

Module Fake.

(** A scripted database: each [execute] consumes the next prepared
    outcome, whatever the statement. *)
Definition script := list exec_outcome.

Definition script_exhausted : exec_outcome :=
  ExecRaises (Exn OperationalError (lit "server closed the connection unexpectedly")).

Definition scripted_driver (on_connect : connect_outcome script) : Driver := {|
  ServerState := script;
  pg_execute st _ _ :=
    match st with
    | o :: st' => (st', o)
    | [] => ([], script_exhausted)
    end;
  pg_connect _ := on_connect
|}.

(** The scripted database reached by a successful connect. *)
Definition scripted : Driver := scripted_driver (ConnectReturns (Some [])).

(** A world with an open connection in server state [s], nothing sent,
    nothing logged. *)
Definition fresh {D : Driver} (s : ServerState) : World :=
  {| db := {| server := s; closed := false; sent := [] |}; logged := [] |}.

(** The world of a scripted database with the outcomes [s] prepared. *)
Definition scripted_world (s : script) : World (D := scripted) :=
  fresh (D := scripted) s.

(** A query and a database that answers it with one row. *)
Definition select_one : str := lit "select 1 as one".

Definition select_one_world : World (D := scripted) :=
  scripted_world [ExecDone (Some [[(lit "one", VInt 1)]])].

(** A catalog with two public tables, listed out of order, and a view
    of another schema. *)
Definition sample_catalog : catalog := {|
  tables :=
    [{| table_schema := lit "public"; table_name := lit "staff";
        table_type := lit "BASE TABLE" |};
     {| table_schema := lit "pg_catalog"; table_name := lit "pg_tables";
        table_type := lit "VIEW" |};
     {| table_schema := lit "public"; table_name := lit "projects";
        table_type := lit "BASE TABLE" |}];
  columns :=
    [{| column_schema := lit "public"; column_table := lit "projects";
        ordinal_position := 2; column_name := lit "title";
        data_type := lit "text"; character_maximum_length := None;
        is_nullable := lit "YES"; column_default := None |};
     {| column_schema := lit "public"; column_table := lit "projects";
        ordinal_position := 1; column_name := lit "id";
        data_type := lit "integer"; character_maximum_length := None;
        is_nullable := lit "NO"; column_default := None |}]
|}.

Definition sample_catalog_world : World (D := catalog_driver sample_catalog) :=
  fresh (D := catalog_driver sample_catalog) sample_catalog.

(** A scripted world whose connection has been closed. *)
Definition closed_world : World (D := scripted) :=
  @Build_World scripted (@Build_Connection scripted ([] : script) true []) [].

(** An uppercase table to run the model on concrete strings: the Latin-1
    letters, and every code point whose uppercase form contains an ASCII
    letter.  The inputs of the examples below are ASCII, where the table
    is not consulted. *)
Definition sample_upper_table : list (N * str) :=
  [(181, [924]); (223, [83; 83]); (224, [192]); (225, [193]); (226, [194]);
   (227, [195]); (228, [196]); (229, [197]); (230, [198]); (231, [199]);
   (232, [200]); (233, [201]); (234, [202]); (235, [203]); (236, [204]);
   (237, [205]); (238, [206]); (239, [207]); (240, [208]); (241, [209]);
   (242, [210]); (243, [211]); (244, [212]); (245, [213]); (246, [214]);
   (248, [216]); (249, [217]); (250, [218]); (251, [219]); (252, [220]);
   (253, [221]); (254, [222]); (255, [376]); (305, [73]); (329, [700; 78]);
   (383, [83]); (496, [74; 780]); (7830, [72; 817]); (7831, [84; 776]);
   (7832, [87; 778]); (7833, [89; 778]); (7834, [65; 702]);
   (64256, [70; 70]); (64257, [70; 73]); (64258, [70; 76]);
   (64259, [70; 70; 73]); (64260, [70; 70; 76]); (64261, [83; 84]);
   (64262, [83; 84])]%N.

Fixpoint table_lookup (t : list (N * str)) (c : N) : str :=
  match t with
  | [] => [c]
  | (k, v) :: t' => if (k =? c)%N then v else table_lookup t' c
  end.

Definition sample_unicode : Unicode :=
  {| upper_ext := table_lookup sample_upper_table |}.

End Fake.
Import Fake.

(* ================================================================= *)
(** ** The wording of the specification, where it differs from the code *)

Module Spec.

(** [sub] occurs somewhere in [s]. *)
Fixpoint contains (s sub : str) : bool :=
  startswith s sub
  || match s with
     | [] => false
     | _ :: t => contains t sub
     end.

Fixpoint take_word (s : str) : str :=
  match s with
  | c :: t => if isspace c then [] else c :: take_word t
  | [] => []
  end.

(** The leading token of a query: its first word, after the surrounding
    whitespace is trimmed. *)
Definition spec_leading_token (query : str) : str := take_word (strip query).

(** The leading token is, case-insensitively, one of the keywords. *)
Definition spec_leading_keyword {U : Unicode} (query : str) : bool :=
  existsb (str_eqb (upper (spec_leading_token query))) read_only_prefixes.

(** The trimmed, uppercased text of the query begins with the characters
    of one of the three keywords. *)
Definition begins_with_keyword {U : Unicode} (query : str) : Prop :=
  exists kw rest,
    In kw [lit "SELECT"; lit "WITH"; lit "SHOW"]
    /\ upper (strip query) = kw ++ rest.

(** A connection string can carry a password only in a userinfo part,
    which ends with an at-sign, or in a [password] parameter. *)
Definition spec_conninfo_has_password (conninfo : str) : bool :=
  contains conninfo (lit "@") || contains conninfo (lit "password").

(** A password is resolvable by one of the two configuration paths: from
    the composed connection string, or from the discrete field. *)
Definition spec_password_resolvable (env : environ) : bool :=
  match getenv env (lit "DATABASE_URL") with
  | Some url => spec_conninfo_has_password url
  | None => false
  end
  || match getenv env (lit "DATABASE_PASSWORD") with
     | Some (_ :: _) => true
     | _ => false
     end.

(** The set-up attempted a connection. *)
Definition attempts_connection (evs : list event) : bool :=
  existsb (fun e => match e with Connect _ => true | _ => false end) evs.

End Spec.

(* ================================================================= *)
(** ** What is observed of a run *)

Module Obs.

(** The number of connection attempts among the events. *)
Fixpoint connects (evs : list event) : nat :=
  match evs with
  | [] => 0
  | Connect _ :: evs' => S (connects evs')
  | _ :: evs' => connects evs'
  end.

(** The number of times a connection is closed. *)
Fixpoint closes (evs : list event) : nat :=
  match evs with
  | [] => 0
  | Close :: evs' => S (closes evs')
  | _ :: evs' => closes evs'
  end.

(** The records written to the log, in order. *)
Fixpoint log_records (evs : list event) : list LogRecord :=
  match evs with
  | [] => []
  | Log r :: evs' => r :: log_records evs'
  | _ :: evs' => log_records evs'
  end.

(** [w'] is [w] after some statements were sent and some records logged:
    the connection is open or closed as before, and what had been sent
    and logged is still there, in front. *)
Definition grows {D : Driver} (w w' : World) : Prop :=
  closed (db w') = closed (db w)
  /\ (exists more, sent (db w') = sent (db w) ++ more)
  /\ (exists more, logged w' = logged w ++ more).

(** The record a tool writes when it fails. *)
Definition failure (msg : str) : LogRecord :=
  {| log_level := ERROR; log_msg := msg |}.

(** What a tool adds to the log: its failure record when it raises an
    [Exception]; nothing when it returns, and nothing when what it raises
    is no [Exception], which its [except] clause does not catch. *)
Definition logged_by {A} (r : result A) (msg : str) : list LogRecord :=
  match r with
  | Raise e => if is_exception (exn_class_of e) then [failure msg] else []
  | Return _ => []
  end.

(** The exception of [cursor()] on a closed connection. *)
Definition connection_closed : exn :=
  Exn OperationalError (lit "the connection is closed").

(** Only whitespace. *)
Definition blank (s : str) : Prop := Forall (fun c => isspace c = true) s.

(** Only ASCII characters. *)
Definition ascii (s : str) : Prop := Forall (fun c => (c < 128)%N) s.

(** A computation that leaves the connection open or closed as it was,
    keeps what had been sent in front of what it sends, and logs
    nothing. *)
Definition quiet {D : Driver} {A} (m : M A) : Prop :=
  forall w,
    closed (db (fst (m w))) = closed (db w)
    /\ (exists more, sent (db (fst (m w))) = sent (db w) ++ more)
    /\ logged (fst (m w)) = logged w.

(** The world after a tool failed with nothing sent. *)
Definition with_failure {D : Driver} (w : World) (msg : str) : World :=
  {| db := db w; logged := logged w ++ [failure msg] |}.

(** The world after a tool ended with the exception [e]: with the failure
    record when [e] is an [Exception], unchanged otherwise. *)
Definition after_raise {D : Driver} (w : World) (e : exn) (msg : str) : World :=
  if is_exception (exn_class_of e) then with_failure w msg else w.

(** The world after a statement was sent on an open connection and the
    server moved to [s']. *)
Definition after_statement {D : Driver} (w : World) (s' : ServerState)
    (c : call) : World :=
  {| db := {| server := s'; closed := false; sent := sent (db w) ++ [c] |};
     logged := logged w |}.

(** The columns the catalog holds for a table of the public schema. *)
Definition public_columns (c : catalog) (name : str) : list column_entry :=
  filter (fun col => in_public (column_schema col) && str_eqb (column_table col) name)
    (columns c).

(** All the ends of a string, the string itself first. *)
Fixpoint suffixes (s : str) : list str :=
  s :: match s with
       | [] => []
       | _ :: t => suffixes t
       end.

End Obs.
Import Obs.
Import Spec.

(* ================================================================= *)
(** ** Facts about the string builtins *)

Lemma str_eqb_eq (a b : str) : str_eqb a b = true <-> a = b.
Proof.
  revert b; induction a as [|x a IH]; intros [|y b]; simpl;
    try (split; [discriminate | congruence]); try tauto.
  rewrite andb_true_iff, N.eqb_eq, IH. split.
  - intros [-> ->]; reflexivity.
  - intros [= -> ->]; auto.
Qed.

Lemma str_eqb_refl (a : str) : str_eqb a a = true.
Proof. apply str_eqb_eq; reflexivity. Qed.

(** [startswith] decides "begins with". *)
Lemma startswith_iff (s p : str) :
  startswith s p = true <-> exists rest, s = p ++ rest.
Proof.
  revert s; induction p as [|x p IH]; intros [|c s]; simpl.
  - split; [intros _; exists []; reflexivity | reflexivity].
  - split; [intros _; exists (c :: s); reflexivity | reflexivity].
  - split; [discriminate | intros [rest Hr]; discriminate].
  - rewrite andb_true_iff, N.eqb_eq, IH. split.
    + intros [-> [rest ->]]. exists rest; reflexivity.
    + intros [rest [= -> ->]]. split; [reflexivity | exists rest; reflexivity].
Qed.

Lemma startswith_app (p rest : str) : startswith (p ++ rest) p = true.
Proof. apply startswith_iff. exists rest; reflexivity. Qed.

Lemma contains_iff (s sub : str) :
  contains s sub = true <-> exists a b, s = a ++ sub ++ b.
Proof.
  induction s as [|c s IH]; cbn [contains].
  - rewrite orb_false_r, startswith_iff. split.
    + intros [rest Hr]. exists [], rest. exact Hr.
    + intros [a [b Hab]]. destruct a; [exists b; exact Hab|discriminate].
  - rewrite orb_true_iff, IH, startswith_iff. split.
    + intros [[rest Hr] | [a [b Hab]]].
      * exists [], rest. exact Hr.
      * exists (c :: a), b. simpl. rewrite Hab. reflexivity.
    + intros [[|x a] [b Hab]].
      * left. exists b. exact Hab.
      * right. injection Hab as -> ->. exists a, b. reflexivity.
Qed.

(** Jumping over the rest of a match. *)
Lemma replace_from_skip (old new p rest : str) :
  replace_from old new (List.length p) (p ++ rest) = replace_from old new 0 rest.
Proof.
  induction p as [|c p IH]; simpl.
  - destruct rest; reflexivity.
  - exact IH.
Qed.

(** A match at the head is replaced and the scan goes on behind it. *)
Lemma replace_head (old new rest : str) :
  old <> [] ->
  replace (old ++ rest) old new = new ++ replace rest old new.
Proof.
  intros Hne. destruct old as [|c old]; [congruence|].
  unfold replace.
  change (replace_from (c :: old) new 0 ((c :: old) ++ rest))
    with (if startswith ((c :: old) ++ rest) (c :: old)
          then new ++ replace_from (c :: old) new (List.length (c :: old) - 1) (old ++ rest)
          else c :: replace_from (c :: old) new 0 (old ++ rest)).
  rewrite startswith_app.
  replace (List.length (c :: old) - 1) with (List.length old) by (simpl; lia).
  rewrite replace_from_skip. reflexivity.
Qed.

(** Without an occurrence nothing is replaced. *)
Lemma replace_absent (s old new : str) :
  contains s old = false -> replace s old new = s.
Proof.
  unfold replace. induction s as [|c s IH]; simpl; [reflexivity|].
  intros Hc. apply orb_false_iff in Hc as [Hsw Hrest].
  destruct old as [|o old]; [discriminate|].
  simpl in Hsw |- *. rewrite Hsw. f_equal. apply IH. exact Hrest.
Qed.

(** On ASCII input the uppercase form does not depend on the Unicode
    table. *)
Lemma upper_ascii_irrelevant (U1 U2 : Unicode) (s : str) :
  Forall (fun c => (c < 128)%N) s -> @upper U1 s = @upper U2 s.
Proof.
  induction 1 as [|c s Hc _ IH]; simpl; [reflexivity|].
  rewrite IH. f_equal. unfold upper_char.
  destruct ((97 <=? c) && (c <=? 122))%N; [reflexivity|].
  apply N.ltb_lt in Hc. rewrite Hc. reflexivity.
Qed.

(* ----------------------------------------------------------------- *)
(** *** The order on names *)

Lemma str_leb_total (a b : str) : str_leb a b = true \/ str_leb b a = true.
Proof.
  revert b; induction a as [|x a IH]; intros [|y b]; simpl; auto.
  destruct (N.lt_total x y) as [Hlt | [-> | Hgt]].
  - left. apply N.ltb_lt in Hlt. rewrite Hlt. reflexivity.
  - rewrite N.ltb_irrefl, N.eqb_refl. simpl. apply IH.
  - right. apply N.ltb_lt in Hgt. rewrite Hgt. reflexivity.
Qed.

Lemma str_leb_trans (a b c : str) :
  str_leb a b = true -> str_leb b c = true -> str_leb a c = true.
Proof.
  revert b c; induction a as [|x a IH]; intros [|y b] [|z c]; simpl;
    try reflexivity; try discriminate.
  rewrite !orb_true_iff, !andb_true_iff, !N.ltb_lt, !N.eqb_eq.
  intros [Hxy | [-> Hab]] [Hyz | [-> Hbc]].
  - left. lia.
  - left. exact Hxy.
  - left. exact Hyz.
  - right. split; [reflexivity | eapply IH; eassumption].
Qed.

(* ----------------------------------------------------------------- *)
(** *** [ORDER BY] orders and keeps the rows *)

Section OrderBy.
Variable A : Type.
Variable leb : A -> A -> bool.
Hypothesis leb_total : forall x y, leb x y = true \/ leb y x = true.
Hypothesis leb_trans : forall x y z, leb x y = true -> leb y z = true -> leb x z = true.

Let le (x y : A) : Prop := leb x y = true.

Lemma insert_by_perm (x : A) (l : list A) :
  Permutation (x :: l) (insert_by leb x l).
Proof.
  induction l as [|y l IH]; simpl; [reflexivity|].
  destruct (leb x y); [reflexivity|].
  rewrite perm_swap. apply perm_skip. exact IH.
Qed.

Lemma order_by_perm (l : list A) : Permutation l (order_by leb l).
Proof.
  induction l as [|x l IH]; simpl; [constructor|].
  rewrite <- insert_by_perm. apply perm_skip. exact IH.
Qed.

Lemma insert_by_sorted (x : A) (l : list A) :
  StronglySorted le l -> StronglySorted le (insert_by leb x l).
Proof.
  induction 1 as [|y l Hs IH Hy]; simpl.
  - repeat constructor.
  - destruct (leb x y) eqn:Hxy.
    + constructor; [constructor; assumption|].
      constructor; [exact Hxy|].
      eapply Forall_impl; [|exact Hy]. intros z Hz. eapply leb_trans; eassumption.
    + constructor; [exact IH|].
      assert (Hyx : le y x) by (destruct (leb_total x y); [congruence|assumption]).
      eapply Permutation_Forall; [apply insert_by_perm|].
      constructor; assumption.
Qed.

Lemma order_by_sorted (l : list A) : StronglySorted le (order_by leb l).
Proof.
  induction l as [|x l IH]; simpl; [constructor|].
  apply insert_by_sorted. exact IH.
Qed.

End OrderBy.

(* ================================================================= *)
(** ** The read-only check of [execute_query] *)

Ltac unfold_monad :=
  unfold try_log, bind, cursor, execute, fetchall, fetchone, ret, raise.

Section ReadOnly.
Context {U : Unicode} {D : Driver}.

Lemma is_read_only_iff (query : str) :
  is_read_only query = true <-> begins_with_keyword query.
Proof.
  unfold is_read_only, begins_with_keyword, read_only_prefixes.
  rewrite existsb_exists. split.
  - intros [kw [Hin Hsw]]. apply startswith_iff in Hsw as [rest Hr].
    exists kw, rest. split; assumption.
  - intros [kw [rest [Hin Hr]]]. exists kw. split; [exact Hin|].
    apply startswith_iff. exists rest. exact Hr.
Qed.

Lemma rejected_query (query : str) (w : World) :
  is_read_only query = false -> execute_query query w = (w, Return rejection).
Proof. intros Hno. unfold execute_query. rewrite Hno. reflexivity. Qed.

(** What an accepted query leaves in the connection's record of sent
    statements. *)
Lemma accepted_query_sent (query : str) (w : World) :
  is_read_only query = true ->
  sent (db (fst (execute_query query w)))
  = sent (db w) ++ (if closed (db w) then [] else [(QSql (SQL query), None)]).
Proof.
  intros Hyes. unfold execute_query. rewrite Hyes. cbn [negb].
  unfold_monad. destruct (closed (db w)) eqn:Hc; cbn.
  - rewrite app_nil_r. reflexivity.
  - destruct (pg_execute (server (db w)) (QSql (SQL query)) None)
      as [s' [e | [rows |]]]; cbn;
      try destruct (is_exception (exn_class_of e)); reflexivity.
Qed.

Lemma accepted_query_not_rejected (query : str) (w : World) :
  is_read_only query = true -> execute_query query w <> (w, Return rejection).
Proof.
  intros Hyes. unfold execute_query. rewrite Hyes. cbn [negb].
  unfold_monad. destruct (closed (db w)); cbn; [discriminate|].
  destruct (pg_execute (server (db w)) (QSql (SQL query)) None)
    as [s' [e | [rows |]]]; cbn;
    try destruct (is_exception (exn_class_of e)); discriminate.
Qed.

End ReadOnly.

(** C1 (amended).  A query whose trimmed, uppercased text does not begin
    with the characters SELECT, WITH or SHOW is answered with the
    rejection envelope as a normal result, and the world is returned as it
    was: nothing is sent to the database and nothing is logged. *)
Theorem execute_query_rejects {U : Unicode} {D : Driver} (query : str) (w : World) :
  ~ begins_with_keyword query ->
  execute_query query w = (w, Return rejection)
  /\ rejection = [(lit "error", VStr (lit "Only SELECT, WITH, and SHOW queries are allowed"));
                  (lit "rows", VList []);
                  (lit "row_count", VInt 0)].
Proof.
  intros Hno. split; [|reflexivity].
  apply rejected_query. destruct (is_read_only query) eqn:E; [|reflexivity].
  exfalso. apply Hno. apply is_read_only_iff. exact E.
Qed.

Lemma execute_query_rejects_witness :
  ~ begins_with_keyword (U := sample_unicode) (lit "  delete from users")
  /\ execute_query (U := sample_unicode) (D := scripted)
       (lit "  delete from users") (scripted_world [])
     = (scripted_world [], Return rejection).
Proof.
  assert (Hno : ~ begins_with_keyword (U := sample_unicode) (lit "  delete from users")).
  { intros Hyes. apply is_read_only_iff in Hyes. vm_compute in Hyes. discriminate. }
  split; [exact Hno|].
  apply (execute_query_rejects (U := sample_unicode) (D := scripted)
           (lit "  delete from users") (scripted_world []) Hno).
Defined.

(** C1 as worded fails: the leading token SHOWER is none of the three
    keywords, yet the query is not rejected and reaches the database. *)
Lemma execute_query_leading_token_counterexample :
  spec_leading_keyword (U := sample_unicode) (lit "SHOWER curtains") = false
  /\ sent (db (fst (execute_query (U := sample_unicode) (lit "SHOWER curtains")
                      (scripted_world [ExecDone (Some [])]))))
     = [(QSql (SQL (lit "SHOWER curtains")), None)]
  /\ execute_query (U := sample_unicode) (lit "SHOWER curtains")
       (scripted_world [ExecDone (Some [])])
     <> (scripted_world [ExecDone (Some [])], Return rejection).
Proof. repeat split; vm_compute; (reflexivity || discriminate). Qed.

(** C2.  [execute_query] accepts a query, that is, does anything other
    than return the rejection envelope, exactly when the trimmed,
    uppercased text begins with the characters SELECT, WITH or SHOW; no
    word boundary is required: queries that begin SHOWER or WITHDRAWAL are
    accepted and sent to the database as they are. *)
Theorem execute_query_prefix_check {U : Unicode} {D : Driver} :
  (forall query w,
      execute_query query w <> (w, Return rejection) <-> begins_with_keyword query)
  /\ (forall query,
         In query [lit "SHOWER curtains"; lit "withdrawal from accounts"] ->
         begins_with_keyword query
         /\ spec_leading_keyword query = false
         /\ forall w, closed (db w) = false ->
              sent (db (fst (execute_query query w)))
              = sent (db w) ++ [(QSql (SQL query), None)]).
Proof.
  split.
  - intros query w. rewrite <- is_read_only_iff. split.
    + intros Hne. destruct (is_read_only query) eqn:E; [reflexivity|].
      exfalso. apply Hne. apply rejected_query. exact E.
    + apply accepted_query_not_rejected.
  - intros query Hin.
    assert (Hyes : is_read_only query = true
                   /\ spec_leading_keyword query = false).
    { destruct Hin as [<- | [<- | []]]; split; vm_compute; reflexivity. }
    destruct Hyes as [Hyes Htok].
    split; [apply is_read_only_iff; exact Hyes|].
    split; [exact Htok|].
    intros w Hopen. rewrite (accepted_query_sent _ w Hyes), Hopen. reflexivity.
Qed.

(** C9.  For an accepted query the only statement [execute_query] passes
    to the driver is the caller's string itself, wrapped as SQL without
    parameters: the trimmed, uppercased copy serves the check alone and
    nothing (no LIMIT) is added.  On a closed connection nothing is
    sent. *)
Theorem execute_query_sends_original {U : Unicode} {D : Driver} (query : str) (w : World) :
  begins_with_keyword query ->
  sent (db (fst (execute_query query w)))
  = sent (db w) ++ (if closed (db w) then [] else [(QSql (SQL query), None)]).
Proof.
  intros Hyes. apply accepted_query_sent. apply is_read_only_iff. exact Hyes.
Qed.

Lemma execute_query_sends_original_witness :
  begins_with_keyword (U := sample_unicode) (lit "  select Name from Users  ")
  /\ sent (db (fst (execute_query (U := sample_unicode) (D := scripted)
                      (lit "  select Name from Users  ")
                      (scripted_world [ExecDone (Some [])]))))
     = [(QSql (SQL (lit "  select Name from Users  ")), None)].
Proof.
  assert (Hyes : begins_with_keyword (U := sample_unicode)
                   (lit "  select Name from Users  ")).
  { apply is_read_only_iff. vm_compute. reflexivity. }
  split; [exact Hyes|].
  apply (execute_query_sends_original (U := sample_unicode) (D := scripted)
           (lit "  select Name from Users  ") (scripted_world [ExecDone (Some [])]) Hyes).
Defined.

(* ================================================================= *)
(** ** The shape of the results *)

(** C3 (amended).  A call of [execute_query] that returns a result without
    an error entry returns the rows the database gave, [row_count] equal
    to their number, and [columns] equal to the keys of the first row when
    there is one; [columns] is empty when there are no rows, and when
    [columns] is empty there are no rows or the first row has no
    column. *)
Theorem execute_query_success_shape {U : Unicode} {D : Driver}
    (query : str) (w w' : World) (d : dict) :
  execute_query query w = (w', Return d) ->
  dict_get d (lit "error") = None ->
  exists rows columns s',
    pg_execute (server (db w)) (QSql (SQL query)) None = (s', ExecDone (Some rows))
    /\ d = [(lit "rows", VList (map VDict rows));
            (lit "row_count", VInt (Z.of_nat (List.length rows)));
            (lit "columns", VList columns)]
    /\ (forall r0 rest, rows = r0 :: rest ->
          columns = map (fun kv => VStr (fst kv)) r0)
    /\ (rows = [] -> columns = [])
    /\ (columns = [] -> rows = [] \/ exists rest, rows = [] :: rest).
Proof.
  unfold execute_query. destruct (is_read_only query); cbn [negb].
  2:{ unfold ret. intros [= _ <-]. vm_compute. discriminate. }
  unfold_monad. destruct (closed (db w)); [discriminate|].
  destruct (pg_execute (server (db w)) (QSql (SQL query)) None)
    as [s' [e | [rows |]]]; cbn;
    try destruct (is_exception (exn_class_of e)); try discriminate.
  intros [= _ <-] _.
  exists rows, (match rows with r0 :: _ => keys r0 | [] => [] end), s'.
  split; [reflexivity|]. split; [reflexivity|]. split; [|split].
  - intros r0 rest ->. reflexivity.
  - intros ->. reflexivity.
  - destruct rows as [|[|kv r0] rest]; [left; reflexivity | right | discriminate].
    exists rest. reflexivity.
Qed.

Lemma execute_query_success_shape_witness :
  snd (execute_query (U := sample_unicode) select_one select_one_world)
  = Return [(lit "rows", VList [VDict [(lit "one", VInt 1)]]);
            (lit "row_count", VInt 1);
            (lit "columns", VList [VStr (lit "one")])]
  /\ dict_get [(lit "rows", VList [VDict [(lit "one", VInt 1)]]);
               (lit "row_count", VInt 1);
               (lit "columns", VList [VStr (lit "one")])] (lit "error") = None
  /\ exists rows columns s',
       pg_execute (server (db select_one_world)) (QSql (SQL select_one)) None
       = (s', ExecDone (Some rows))
       /\ [(lit "rows", VList [VDict [(lit "one", VInt 1)]]);
           (lit "row_count", VInt 1);
           (lit "columns", VList [VStr (lit "one")])]
          = [(lit "rows", VList (map VDict rows));
             (lit "row_count", VInt (Z.of_nat (List.length rows)));
             (lit "columns", VList columns)]
       /\ (forall r0 rest, rows = r0 :: rest ->
             columns = map (fun kv => VStr (fst kv)) r0)
       /\ (rows = [] -> columns = [])
       /\ (columns = [] -> rows = [] \/ exists rest, rows = [] :: rest).
Proof.
  split; [reflexivity|]. split; [reflexivity|].
  exact (execute_query_success_shape (U := sample_unicode)
           select_one select_one_world
           (fst (execute_query (U := sample_unicode) select_one select_one_world))
           [(lit "rows", VList [VDict [(lit "one", VInt 1)]]);
            (lit "row_count", VInt 1);
            (lit "columns", VList [VStr (lit "one")])]
           eq_refl eq_refl).
Defined.

(** C3 as worded fails: a SELECT without a select list succeeds with one
    row that has no column, so [columns] is empty although the row
    sequence is not. *)
Lemma execute_query_columns_counterexample :
  snd (execute_query (U := sample_unicode) (lit "SELECT")
         (scripted_world [ExecDone (Some [[]])]))
  = Return [(lit "rows", VList [VDict []]);
            (lit "row_count", VInt 1);
            (lit "columns", VList [])].
Proof. vm_compute. reflexivity. Qed.

(** C4.  When the catalog query for the columns of a table returns no
    row, [get_table_schema] returns, without raising and without logging,
    a dictionary that holds an error message, the requested table name and
    an empty column list. *)
Theorem get_table_schema_not_found {D : Driver}
    (name : str) (w : World) (s' : ServerState) :
  closed (db w) = false ->
  pg_execute (server (db w)) (QStr table_schema_query) (Some [VStr name])
  = (s', ExecDone (Some [])) ->
  get_table_schema name w
  = ({| db := {| server := s'; closed := false;
                 sent := sent (db w)
                         ++ [(QStr table_schema_query, Some [VStr name])] |};
        logged := logged w |},
     Return [(lit "error", VStr (lit "Table '" ++ name ++ lit "' not found"));
             (lit "table_name", VStr name);
             (lit "columns", VList [])]).
Proof.
  intros Hopen Hrun. unfold get_table_schema. unfold_monad.
  rewrite Hopen, Hrun. cbn. rewrite Hopen. reflexivity.
Qed.

(** The other shape: with at least one column row the result has no
    error entry, so the two outcomes can be told apart. *)
Lemma get_table_schema_found {D : Driver}
    (name : str) (w : World) (s' : ServerState) (c : row) (cs : list row) :
  closed (db w) = false ->
  pg_execute (server (db w)) (QStr table_schema_query) (Some [VStr name])
  = (s', ExecDone (Some (c :: cs))) ->
  exists d, snd (get_table_schema name w) = Return d
            /\ dict_get d (lit "error") = None
            /\ dict_get d (lit "column_count")
               = Some (VInt (Z.of_nat (List.length (c :: cs)))).
Proof.
  intros Hopen Hrun. unfold get_table_schema. unfold_monad.
  rewrite Hopen, Hrun. cbn [snd]. eexists. split; [reflexivity|].
  split; vm_compute; reflexivity.
Qed.

Lemma get_table_schema_not_found_witness :
  closed (db sample_catalog_world) = false
  /\ snd (get_table_schema (lit "ghost") sample_catalog_world)
     = Return [(lit "error", VStr (lit "Table '" ++ lit "ghost" ++ lit "' not found"));
               (lit "table_name", VStr (lit "ghost"));
               (lit "columns", VList [])].
Proof.
  split; [reflexivity|].
  rewrite (get_table_schema_not_found (D := catalog_driver sample_catalog)
             (lit "ghost") sample_catalog_world sample_catalog eq_refl eq_refl).
  reflexivity.
Defined.

(** [r[key] if r else default] on a row that has the key, and without a
    row. *)
Lemma item_or_present {D : Driver} (r : row) (key : str) (default v : value) :
  dict_get r key = Some v -> item_or (Some r) key default = ret v.
Proof.
  intros Hv. destruct r as [|kv r]; [discriminate|].
  unfold item_or. rewrite Hv. reflexivity.
Qed.

Lemma item_or_absent {D : Driver} (key : str) (default : value) :
  item_or None key default = ret default.
Proof. reflexivity. Qed.

(** C8 (amended).  When a sub-query of [get_table_stats] gives no row, the
    fields read from it fall back: [row_count] to the number 0, the three
    sizes to the string Unknown; the fields of the other sub-query keep
    the values of its first row. *)
Theorem get_table_stats_fallbacks {D : Driver}
    (name : str) (w : World) (s1 s2 : ServerState) (rows1 rows2 : list row) :
  closed (db w) = false ->
  pg_execute (server (db w)) (count_query name) None
  = (s1, ExecDone (Some rows1)) ->
  pg_execute s1 size_query (Some [VStr name; VStr name; VStr name])
  = (s2, ExecDone (Some rows2)) ->
  (rows1 = [] -> rows2 = [] ->
   snd (get_table_stats name w)
   = Return [(lit "table_name", VStr name);
             (lit "row_count", VInt 0);
             (lit "total_size", VStr (lit "Unknown"));
             (lit "table_size", VStr (lit "Unknown"));
             (lit "indexes_size", VStr (lit "Unknown"))])
  /\ (forall r rest total table indexes,
         rows1 = [] -> rows2 = r :: rest ->
         dict_get r (lit "total_size") = Some total ->
         dict_get r (lit "table_size") = Some table ->
         dict_get r (lit "indexes_size") = Some indexes ->
         snd (get_table_stats name w)
         = Return [(lit "table_name", VStr name);
                   (lit "row_count", VInt 0);
                   (lit "total_size", total);
                   (lit "table_size", table);
                   (lit "indexes_size", indexes)])
  /\ (forall r rest count,
         rows1 = r :: rest -> rows2 = [] ->
         dict_get r (lit "count") = Some count ->
         snd (get_table_stats name w)
         = Return [(lit "table_name", VStr name);
                   (lit "row_count", count);
                   (lit "total_size", VStr (lit "Unknown"));
                   (lit "table_size", VStr (lit "Unknown"));
                   (lit "indexes_size", VStr (lit "Unknown"))]).
Proof.
  intros Hopen Hcount Hsize.
  unfold get_table_stats. unfold_monad. rewrite Hopen, Hcount.
  split; [|split].
  - intros -> ->. cbn. rewrite Hopen. cbn. rewrite Hsize. reflexivity.
  - intros r rest total table indexes -> -> Ht Hb Hi.
    cbn -[item_or lit]. rewrite Hopen, item_or_absent. unfold ret.
    cbn -[item_or lit]. rewrite Hsize.
    rewrite (item_or_present _ _ _ _ Ht), (item_or_present _ _ _ _ Hb),
      (item_or_present _ _ _ _ Hi).
    reflexivity.
  - intros r rest count -> -> Hc.
    rewrite (item_or_present _ _ _ _ Hc).
    cbn. rewrite Hopen. cbn. rewrite Hsize. reflexivity.
Qed.

Lemma get_table_stats_fallbacks_witness :
  closed (db (scripted_world [ExecDone (Some []); ExecDone (Some [])])) = false
  /\ pg_execute (Driver := scripted) [ExecDone (Some []); ExecDone (Some [])]
       (count_query (lit "users")) None
     = ([ExecDone (Some [])], ExecDone (Some []))
  /\ pg_execute (Driver := scripted) [ExecDone (Some [])] size_query
       (Some [VStr (lit "users"); VStr (lit "users"); VStr (lit "users")])
     = ([], ExecDone (Some []))
  /\ snd (get_table_stats (lit "users")
            (scripted_world [ExecDone (Some []); ExecDone (Some [])]))
     = Return [(lit "table_name", VStr (lit "users"));
               (lit "row_count", VInt 0);
               (lit "total_size", VStr (lit "Unknown"));
               (lit "table_size", VStr (lit "Unknown"));
               (lit "indexes_size", VStr (lit "Unknown"))].
Proof.
  split; [reflexivity|]. split; [reflexivity|]. split; [reflexivity|].
  exact (proj1 (get_table_stats_fallbacks (D := scripted) (lit "users")
                  (scripted_world [ExecDone (Some []); ExecDone (Some [])])
                  [ExecDone (Some [])] [] [] [] eq_refl eq_refl eq_refl)
           eq_refl eq_refl).
Defined.

(** C8 as worded fails for the row count: when the counting sub-query
    gives no row, [row_count] is the number 0, not the Unknown string. *)
Lemma get_table_stats_row_count_counterexample :
  fetchone (D := scripted) (Some [])
    (scripted_world [ExecDone (Some [])])
  = (scripted_world [ExecDone (Some [])], Return None)
  /\ (exists d,
        snd (get_table_stats (lit "users")
               (scripted_world [ExecDone (Some []); ExecDone (Some [])]))
        = Return d
        /\ dict_get d (lit "row_count") = Some (VInt 0))
  /\ VInt 0 <> VStr (lit "Unknown").
Proof.
  split; [reflexivity|]. split; [|discriminate].
  eexists. split; vm_compute; reflexivity.
Qed.

(* ================================================================= *)
(** ** What the catalog statements ask of the database *)

Lemma filter_map_comm {A B} (f : A -> B) (p : B -> bool) (l : list A) :
  filter p (map f l) = map f (filter (fun a => p (f a)) l).
Proof.
  induction l as [|a l IH]; simpl; [reflexivity|].
  destruct (p (f a)); simpl; rewrite IH; reflexivity.
Qed.

Lemma insert_by_map {A B} (f : A -> B) (leb : A -> A -> bool)
    (leb' : B -> B -> bool) (x : A) (l : list A) :
  (forall a b, leb' (f a) (f b) = leb a b) ->
  insert_by leb' (f x) (map f l) = map f (insert_by leb x l).
Proof.
  intros Hleb. induction l as [|y l IH]; simpl; [reflexivity|].
  rewrite Hleb. destruct (leb x y); simpl; [reflexivity|].
  rewrite IH. reflexivity.
Qed.

Lemma order_by_map {A B} (f : A -> B) (leb : A -> A -> bool)
    (leb' : B -> B -> bool) (l : list A) :
  (forall a b, leb' (f a) (f b) = leb a b) ->
  order_by leb' (map f l) = map f (order_by leb l).
Proof.
  intros Hleb. induction l as [|x l IH]; simpl; [reflexivity|].
  rewrite IH. apply insert_by_map. exact Hleb.
Qed.

(** The statement of [list_tables], read and run over a catalog: the
    tables of the public schema, ordered by name, name and type of
    each. *)
Lemma list_tables_query_parsed :
  parse list_tables_query
  = Some {| sel_columns := [lit "table_name"; lit "table_type"];
            sel_from := lit "information_schema.tables";
            sel_where := [(lit "table_schema", OLit (lit "public"))];
            sel_order := Some (lit "table_name") |}.
Proof. vm_compute. reflexivity. Qed.

Lemma catalog_lists_tables (initial c : catalog) :
  pg_execute (Driver := catalog_driver initial) c (QStr list_tables_query) None
  = (c, ExecDone (Some (select_tables c))).
Proof.
  cbn [pg_execute catalog_driver statement_text].
  rewrite list_tables_query_parsed.
  change (run_select c _ [])
    with (Some (map (fun t => combine [lit "table_name"; lit "table_type"]
                                [field 1 t; field 2 t])
                  (order_by (fun a b => value_leb (field 1 a) (field 1 b))
                     (filter (fun t => sql_eqb (field 0 t) (VStr (lit "public")) && true)
                        (rel_tuples (tables_view c)))))).
  cbn [rel_tuples tables_view]. unfold select_tables.
  rewrite filter_map_comm.
  rewrite (order_by_map _ by_table_name) by reflexivity.
  rewrite map_map.
  rewrite (filter_ext _ (fun t => in_public (table_schema t)))
    by (intros t; cbn; apply andb_true_r).
  reflexivity.
Qed.

(** The statement of [get_table_schema], read and run over a catalog with
    the table name bound to its placeholder: the columns of that table in
    the public schema, ordered by ordinal position. *)
Lemma table_schema_query_parsed :
  parse table_schema_query
  = Some {| sel_columns := [lit "column_name"; lit "data_type";
                            lit "character_maximum_length"; lit "is_nullable";
                            lit "column_default"];
            sel_from := lit "information_schema.columns";
            sel_where := [(lit "table_schema", OLit (lit "public"));
                          (lit "table_name", OParam)];
            sel_order := Some (lit "ordinal_position") |}.
Proof. vm_compute. reflexivity. Qed.

Lemma catalog_describes_table (initial c : catalog) (name : str) :
  pg_execute (Driver := catalog_driver initial) c (QStr table_schema_query)
    (Some [VStr name])
  = (c, ExecDone (Some (select_columns c name))).
Proof.
  cbn [pg_execute catalog_driver statement_text].
  rewrite table_schema_query_parsed.
  change (run_select c _ [VStr name])
    with (Some (map (fun t => combine [lit "column_name"; lit "data_type";
                                       lit "character_maximum_length";
                                       lit "is_nullable"; lit "column_default"]
                                [field 3 t; field 4 t; field 5 t; field 6 t; field 7 t])
                  (order_by (fun a b => value_leb (field 2 a) (field 2 b))
                     (filter (fun t => sql_eqb (field 0 t) (VStr (lit "public"))
                                       && (sql_eqb (field 1 t) (VStr name) && true))
                        (rel_tuples (columns_view c)))))).
  cbn [rel_tuples columns_view]. unfold select_columns.
  rewrite filter_map_comm.
  rewrite (order_by_map _ by_ordinal_position) by reflexivity.
  rewrite map_map.
  rewrite (filter_ext _ (fun col => in_public (column_schema col)
                                    && str_eqb (column_table col) name))
    by (intros col; cbn; rewrite andb_true_r; reflexivity).
  reflexivity.
Qed.

(* ================================================================= *)
(** ** Listing the tables *)

(** Whatever the database, [count] is the number of listed tables. *)
Lemma list_tables_count {D : Driver} (w w' : World) (d : dict) :
  list_tables w = (w', Return d) ->
  exists rows,
    d = [(lit "tables", VList (map VDict rows));
         (lit "count", VInt (Z.of_nat (List.length rows)))].
Proof.
  unfold list_tables. unfold_monad. destruct (closed (db w)); [discriminate|].
  destruct (pg_execute (server (db w)) (QStr list_tables_query) None)
    as [s' [e | [rows |]]]; cbn;
    try destruct (is_exception (exn_class_of e)); try discriminate.
  intros [= _ <-]. exists rows. reflexivity.
Qed.

(** C10.  Against a catalog, whatever it holds, [list_tables] returns
    normally and without an error entry: the tables of the public schema,
    each once, in ascending lexicographic order of their names, and
    [count] equal to their number; with no public table the sequence is
    empty and [count] is 0. *)
Theorem list_tables_ordered (initial : catalog)
    (w : World (D := catalog_driver initial)) :
  closed (db w) = false ->
  exists entries d,
    snd (list_tables w) = Return d
    /\ d = [(lit "tables", VList (map VDict (map table_row entries)));
            (lit "count", VInt (Z.of_nat (List.length entries)))]
    /\ dict_get d (lit "error") = None
    /\ Permutation
         (filter (fun t => in_public (table_schema t)) (tables (server (db w))))
         entries
    /\ StronglySorted
         (fun a b => str_leb (table_name a) (table_name b) = true) entries
    /\ (filter (fun t => in_public (table_schema t)) (tables (server (db w))) = [] ->
        d = [(lit "tables", VList []); (lit "count", VInt 0)]).
Proof.
  intros Hopen.
  exists (order_by by_table_name
            (filter (fun t => in_public (table_schema t)) (tables (server (db w))))).
  eexists. split.
  - unfold list_tables. unfold_monad. rewrite Hopen.
    rewrite (catalog_lists_tables initial (server (db w))).
    cbn -[select_tables lit]. unfold select_tables.
    unfold len. rewrite length_map. reflexivity.
  - split; [reflexivity|]. split; [reflexivity|]. split; [|split].
    + apply order_by_perm.
    + apply order_by_sorted.
      * intros x y. apply str_leb_total.
      * intros x y z. apply str_leb_trans.
    + intros ->. reflexivity.
Qed.

Lemma list_tables_ordered_witness :
  closed (db sample_catalog_world) = false
  /\ snd (list_tables sample_catalog_world)
     = Return [(lit "tables",
                VList [VDict [(lit "table_name", VStr (lit "projects"));
                              (lit "table_type", VStr (lit "BASE TABLE"))];
                       VDict [(lit "table_name", VStr (lit "staff"));
                              (lit "table_type", VStr (lit "BASE TABLE"))]]);
               (lit "count", VInt 2)]
  /\ exists entries d,
       snd (list_tables sample_catalog_world) = Return d
       /\ d = [(lit "tables", VList (map VDict (map table_row entries)));
               (lit "count", VInt (Z.of_nat (List.length entries)))]
       /\ dict_get d (lit "error") = None
       /\ Permutation
            (filter (fun t => in_public (table_schema t)) (tables sample_catalog))
            entries
       /\ StronglySorted
            (fun a b => str_leb (table_name a) (table_name b) = true) entries
       /\ (filter (fun t => in_public (table_schema t)) (tables sample_catalog) = [] ->
           d = [(lit "tables", VList []); (lit "count", VInt 0)]).
Proof.
  split; [reflexivity|]. split; [vm_compute; reflexivity|].
  exact (list_tables_ordered sample_catalog sample_catalog_world eq_refl).
Defined.

(* ================================================================= *)
(** ** Resolving the connection target *)

Lemma resolve_database_url_supplied (env : environ) (url : str) :
  getenv env (lit "DATABASE_URL") = Some url -> url <> [] ->
  resolve_database_url env
  = ([], Return (replace url sqlalchemy_prefix canonical_prefix)).
Proof.
  intros Hurl Hne. unfold resolve_database_url. rewrite Hurl.
  destruct url; [congruence | reflexivity].
Qed.

(** The decoration at the head becomes the canonical scheme; the scan
    then goes on through the remainder. *)
Lemma resolve_database_url_head (env : environ) (rest : str) :
  getenv env (lit "DATABASE_URL") = Some (sqlalchemy_prefix ++ rest) ->
  resolve_database_url env
  = ([], Return (canonical_prefix ++ replace rest sqlalchemy_prefix canonical_prefix)).
Proof.
  intros Hurl. rewrite (resolve_database_url_supplied _ _ Hurl) by discriminate.
  rewrite replace_head by discriminate. reflexivity.
Qed.

(** With no further occurrence behind the head the remainder is kept. *)
Lemma resolve_database_url_strips_prefix (env : environ) (rest : str) :
  getenv env (lit "DATABASE_URL") = Some (sqlalchemy_prefix ++ rest) ->
  contains rest sqlalchemy_prefix = false ->
  resolve_database_url env = ([], Return (canonical_prefix ++ rest)).
Proof.
  intros Hurl Hclean. rewrite (resolve_database_url_head _ _ Hurl).
  rewrite replace_absent by exact Hclean. reflexivity.
Qed.

(** A connection string without the decoration is used as it is. *)
Lemma resolve_database_url_unchanged (env : environ) (url : str) :
  getenv env (lit "DATABASE_URL") = Some url -> url <> [] ->
  contains url sqlalchemy_prefix = false ->
  resolve_database_url env = ([], Return url).
Proof.
  intros Hurl Hne Hclean. rewrite (resolve_database_url_supplied _ _ Hurl Hne).
  rewrite replace_absent by exact Hclean. reflexivity.
Qed.

(** C7 (evaluation at the failing input).  The connection string begins
    with the decoration and carries it once more in a parameter; the
    resolved target has both occurrences rewritten, so the part after the
    scheme is not the part that was supplied. *)
Theorem resolve_database_url_rewrites_parameter :
  resolve_database_url
    [(lit "DATABASE_URL",
      sqlalchemy_prefix
      ++ lit "app:secret@db/main?application_name=postgresql+psycopg://app")]
  = ([], Return (canonical_prefix
                 ++ lit "app:secret@db/main?application_name=postgresql://app"))
  /\ canonical_prefix ++ lit "app:secret@db/main?application_name=postgresql://app"
     <> canonical_prefix
        ++ lit "app:secret@db/main?application_name=postgresql+psycopg://app".
Proof. split; [vm_compute; reflexivity | vm_compute; discriminate]. Qed.

(* ================================================================= *)
(** ** The password check of the connection set-up *)

(** C5 (amended).  When no connection string is supplied (the variable is
    unset or empty) and the discrete password is unset or empty, set-up
    ends with the configuration error before any event: nothing is logged
    and no connection is attempted. *)
Theorem lifespan_requires_password {D : Driver} (env : environ) :
  (getenv env (lit "DATABASE_URL") = None
   \/ getenv env (lit "DATABASE_URL") = Some []) ->
  (getenv env (lit "DATABASE_PASSWORD") = None
   \/ getenv env (lit "DATABASE_PASSWORD") = Some []) ->
  database_lifespan_enter env = ([], Raise password_required)
  /\ attempts_connection (fst (database_lifespan_enter env)) = false.
Proof.
  intros Hurl Hpw.
  assert (Hres : resolve_database_url env = ([], Raise password_required)).
  { unfold resolve_database_url, getenv_default.
    destruct Hurl as [-> | ->], Hpw as [-> | ->]; reflexivity. }
  unfold database_lifespan_enter. rewrite Hres. split; reflexivity.
Qed.

Lemma lifespan_requires_password_witness :
  (getenv [(lit "DATABASE_HOST", lit "db.internal")] (lit "DATABASE_URL") = None
   \/ getenv [(lit "DATABASE_HOST", lit "db.internal")] (lit "DATABASE_URL") = Some [])
  /\ database_lifespan_enter (D := scripted) [(lit "DATABASE_HOST", lit "db.internal")]
     = ([], Raise password_required).
Proof.
  split; [left; reflexivity|].
  exact (proj1 (lifespan_requires_password (D := scripted)
                  [(lit "DATABASE_HOST", lit "db.internal")]
                  (or_introl eq_refl) (or_introl eq_refl))).
Defined.

(** C5 as worded fails: with a connection string that holds no password
    and no discrete password, no password is resolvable by either path,
    yet set-up attempts the connection and yields the context. *)
Lemma lifespan_password_counterexample :
  spec_password_resolvable [(lit "DATABASE_URL", lit "postgresql://localhost/app")]
  = false
  /\ database_lifespan_enter (D := scripted)
       [(lit "DATABASE_URL", lit "postgresql://localhost/app")]
     = ([info (lit "Connecting to PostgreSQL database at None:None/None...");
         Connect (lit "postgresql://localhost/app");
         info (10003%N :: lit " Connected to PostgreSQL database successfully")],
        Return {| conn := db (scripted_world []) |}).
Proof. split; vm_compute; reflexivity. Qed.

(** C6.  With a connection string supplied, whatever it holds and whatever
    the discrete password is, set-up announces the connection and attempts
    it at once, at the string with the decoration replaced.  It can only
    end with an exception that comes from that attempt: one the driver
    raised, or the failure raised for a missing connection object. *)
Theorem lifespan_url_skips_password_check {D : Driver} (env : environ) (url : str) :
  getenv env (lit "DATABASE_URL") = Some url -> url <> [] ->
  exists tail outcome,
    database_lifespan_enter env
    = (info (connecting_msg env)
       :: Connect (replace url sqlalchemy_prefix canonical_prefix) :: tail,
       outcome)
    /\ (forall e, outcome = Raise e ->
          pg_connect (replace url sqlalchemy_prefix canonical_prefix) = ConnectRaises e
          \/ (pg_connect (replace url sqlalchemy_prefix canonical_prefix)
              = ConnectReturns None
              /\ e = connect_failed))
    /\ (forall s, pg_connect (replace url sqlalchemy_prefix canonical_prefix)
                  = ConnectReturns (Some s) ->
          outcome = Return {| conn := {| server := s; closed := false; sent := [] |} |})
    /\ connect_failed <> password_required.
Proof.
  intros Hurl Hne. unfold database_lifespan_enter.
  rewrite (resolve_database_url_supplied _ _ Hurl Hne). cbn [app].
  destruct (pg_connect (replace url sqlalchemy_prefix canonical_prefix))
    as [e | [s |]]; eexists; eexists; (split; [reflexivity|]);
    repeat split; try discriminate.
  - intros e' [= ->]. left. reflexivity.
  - intros s' [= ->]. reflexivity.
  - intros e [= <-]. right. split; reflexivity.
Qed.

Lemma lifespan_url_skips_password_check_witness :
  getenv [(lit "DATABASE_URL", lit "postgresql://localhost/app")] (lit "DATABASE_URL")
  = Some (lit "postgresql://localhost/app")
  /\ exists tail outcome,
       database_lifespan_enter (D := scripted)
         [(lit "DATABASE_URL", lit "postgresql://localhost/app")]
       = (info (connecting_msg [(lit "DATABASE_URL", lit "postgresql://localhost/app")])
          :: Connect (replace (lit "postgresql://localhost/app")
                        sqlalchemy_prefix canonical_prefix) :: tail,
          outcome).
Proof.
  split; [reflexivity|].
  destruct (lifespan_url_skips_password_check (D := scripted)
              [(lit "DATABASE_URL", lit "postgresql://localhost/app")]
              (lit "postgresql://localhost/app") eq_refl)
    as [tail [outcome [Hrun _]]]; [discriminate|].
  exists tail, outcome. exact Hrun.
Defined.

(* ================================================================= *)
(** ** Further properties of the read-only check *)

Lemma lstrip_blank_app (a q : str) : blank a -> lstrip (a ++ q) = lstrip q.
Proof.
  induction 1 as [|c a Hc _ IH]; simpl; [reflexivity|].
  rewrite Hc. exact IH.
Qed.

Lemma lstrip_blank (a : str) : blank a -> lstrip a = [].
Proof.
  intros Ha. rewrite <- (app_nil_r a). rewrite lstrip_blank_app by exact Ha.
  reflexivity.
Qed.

Lemma lstrip_nil_blank (q : str) : lstrip q = [] -> blank q.
Proof.
  induction q as [|c q IH]; simpl; [constructor|].
  destruct (isspace c) eqn:Hc; [|discriminate].
  intros Hq. constructor; [exact Hc | apply IH; exact Hq].
Qed.

Lemma lstrip_app_nonempty (q b : str) :
  lstrip q <> [] -> lstrip (q ++ b) = lstrip q ++ b.
Proof.
  induction q as [|c q IH]; simpl; [congruence|].
  destruct (isspace c); [exact IH | reflexivity].
Qed.

Lemma blank_rev (b : str) : blank b -> blank (rev b).
Proof. apply Forall_rev. Qed.

Lemma rstrip_app_blank (q b : str) : blank b -> rstrip (q ++ b) = rstrip q.
Proof.
  intros Hb. unfold rstrip. rewrite rev_app_distr.
  rewrite lstrip_blank_app by (apply blank_rev; exact Hb). reflexivity.
Qed.

(** Whitespace around a query does not reach the check. *)
Lemma strip_blank_around (a q b : str) :
  blank a -> blank b -> strip (a ++ q ++ b) = strip q.
Proof.
  intros Ha Hb. unfold strip. rewrite lstrip_blank_app by exact Ha.
  destruct (lstrip q) as [|c t] eqn:Hq.
  - apply lstrip_nil_blank in Hq.
    rewrite lstrip_blank_app by exact Hq. rewrite lstrip_blank by exact Hb.
    reflexivity.
  - rewrite lstrip_app_nonempty by congruence. rewrite Hq.
    apply rstrip_app_blank. exact Hb.
Qed.

(** Behind a character that is no whitespace, stripping on the right
    works on the remainder alone. *)
Lemma lstrip_app_keep (x y : str) (c : N) :
  isspace c = false -> lstrip (x ++ c :: y) = lstrip x ++ c :: y.
Proof.
  intros Hc. induction x as [|d x IH]; simpl.
  - rewrite Hc. reflexivity.
  - destruct (isspace d); [exact IH | reflexivity].
Qed.

Lemma rstrip_app_keep (a rest : str) (c : N) :
  isspace c = false -> rstrip ((a ++ [c]) ++ rest) = (a ++ [c]) ++ rstrip rest.
Proof.
  intros Hc. unfold rstrip. rewrite !rev_app_distr. cbn [rev app].
  rewrite lstrip_app_keep by exact Hc.
  rewrite rev_app_distr. cbn [rev]. rewrite rev_involutive. reflexivity.
Qed.

Lemma upper_app {U : Unicode} (a b : str) : upper (a ++ b) = upper a ++ upper b.
Proof. unfold upper. apply flat_map_app. Qed.

(** X1.  Whitespace before and after a query has no influence on whether
    it passes the read-only check. *)
Theorem is_read_only_ignores_blank_around {U : Unicode} (a q b : str) :
  blank a -> blank b -> is_read_only (a ++ q ++ b) = is_read_only q.
Proof.
  intros Ha Hb. unfold is_read_only.
  rewrite strip_blank_around by assumption. reflexivity.
Qed.

Lemma is_read_only_ignores_blank_around_witness :
  blank [32; 10]%N /\ blank [9]%N
  /\ is_read_only (U := sample_unicode) ([32; 10]%N ++ lit "show all" ++ [9]%N)
     = is_read_only (U := sample_unicode) (lit "show all").
Proof.
  assert (Ha : blank [32; 10]%N) by (repeat constructor).
  assert (Hb : blank [9]%N) by (repeat constructor).
  split; [exact Ha|]. split; [exact Hb|].
  exact (is_read_only_ignores_blank_around (U := sample_unicode)
           [32; 10]%N (lit "show all") [9]%N Ha Hb).
Defined.

(** X2.  A query that is empty or holds only whitespace is rejected: the
    rejection envelope is returned and the world is left as it was. *)
Theorem execute_query_rejects_blank {U : Unicode} {D : Driver} (q : str) (w : World) :
  blank q -> execute_query q w = (w, Return rejection).
Proof.
  intros Hq. apply rejected_query. unfold is_read_only, strip.
  rewrite lstrip_blank by exact Hq. reflexivity.
Qed.

Lemma execute_query_rejects_blank_witness :
  blank [32; 9; 10]%N
  /\ execute_query (U := sample_unicode) [32; 9; 10]%N closed_world
     = (closed_world, Return rejection).
Proof.
  assert (Hq : blank [32; 9; 10]%N) by (repeat constructor).
  split; [exact Hq|].
  exact (execute_query_rejects_blank (U := sample_unicode) (D := scripted)
           [32; 9; 10]%N closed_world Hq).
Defined.

Lemma keyword_then_anything {U : Unicode} (kw rest : str) :
  In kw read_only_prefixes -> is_read_only (kw ++ rest) = true.
Proof.
  intros Hin. unfold is_read_only, read_only_prefixes in *.
  apply existsb_exists. exists kw. split; [exact Hin|].
  assert (Hstrip : strip (kw ++ rest) = kw ++ rstrip rest /\ upper kw = kw).
  { unfold strip.
    destruct Hin as [<- | [<- | [<- | []]]].
    - split; [|reflexivity].
      change (lstrip (lit "SELECT" ++ rest)) with ((lit "SELEC" ++ [84%N]) ++ rest).
      apply rstrip_app_keep. reflexivity.
    - split; [|reflexivity].
      change (lstrip (lit "WITH" ++ rest)) with ((lit "WIT" ++ [72%N]) ++ rest).
      apply rstrip_app_keep. reflexivity.
    - split; [|reflexivity].
      change (lstrip (lit "SHOW" ++ rest)) with ((lit "SHO" ++ [87%N]) ++ rest).
      apply rstrip_app_keep. reflexivity. }
  destruct Hstrip as [-> Hup]. rewrite upper_app, Hup. apply startswith_app.
Qed.

(** X3.  The check looks at the first characters only: a keyword followed
    by any text at all, further statements included, is accepted, and on
    an open connection the whole text is sent as one statement. *)
Theorem execute_query_accepts_keyword_then_anything {U : Unicode} {D : Driver}
    (kw rest : str) (w : World) :
  In kw [lit "SELECT"; lit "WITH"; lit "SHOW"] ->
  closed (db w) = false ->
  is_read_only (kw ++ rest) = true
  /\ sent (db (fst (execute_query (kw ++ rest) w)))
     = sent (db w) ++ [(QSql (SQL (kw ++ rest)), None)].
Proof.
  intros Hin Hopen.
  assert (Hyes : is_read_only (kw ++ rest) = true)
    by (apply keyword_then_anything; exact Hin).
  split; [exact Hyes|].
  rewrite (accepted_query_sent _ w Hyes), Hopen. reflexivity.
Qed.

Lemma execute_query_accepts_keyword_then_anything_witness :
  In (lit "SELECT") [lit "SELECT"; lit "WITH"; lit "SHOW"]
  /\ closed (db (scripted_world [ExecDone (Some [])])) = false
  /\ sent (db (fst (execute_query (U := sample_unicode)
                      (lit "SELECT" ++ lit " 1; DROP TABLE users")
                      (scripted_world [ExecDone (Some [])]))))
     = [(QSql (SQL (lit "SELECT" ++ lit " 1; DROP TABLE users")), None)].
Proof.
  split; [left; reflexivity|]. split; [reflexivity|].
  exact (proj2 (execute_query_accepts_keyword_then_anything (U := sample_unicode)
                  (D := scripted) (lit "SELECT") (lit " 1; DROP TABLE users")
                  (scripted_world [ExecDone (Some [])])
                  (or_introl eq_refl) eq_refl)).
Defined.

(* ----------------------------------------------------------------- *)
(** *** Letter case *)

Lemma ascii_enumerated (c : N) :
  (c < 128)%N -> In c (map N.of_nat (seq 0 128)).
Proof.
  intros Hc. rewrite <- (N2Nat.id c). apply in_map. apply in_seq. lia.
Qed.

Lemma isspace_ascii_upper (c : N) :
  (c < 128)%N -> isspace (ascii_upper c) = isspace c.
Proof.
  intros Hc.
  assert (Hall : forallb (fun c => Bool.eqb (isspace (ascii_upper c)) (isspace c))
                   (map N.of_nat (seq 0 128)) = true)
    by (vm_compute; reflexivity).
  rewrite forallb_forall in Hall.
  apply Bool.eqb_prop. apply Hall. apply ascii_enumerated. exact Hc.
Qed.

Lemma upper_ascii {U : Unicode} (s : str) : ascii s -> upper s = map ascii_upper s.
Proof.
  induction 1 as [|c s Hc _ IH]; simpl; [reflexivity|].
  rewrite IH. f_equal. unfold upper_char, ascii_upper.
  destruct ((97 <=? c) && (c <=? 122))%N; [reflexivity|].
  apply N.ltb_lt in Hc. rewrite Hc. reflexivity.
Qed.

Lemma ascii_lstrip (s : str) : ascii s -> ascii (lstrip s).
Proof.
  induction 1 as [|c s Hc Hs IH]; simpl; [constructor|].
  destruct (isspace c); [exact IH | constructor; assumption].
Qed.

Lemma ascii_strip (s : str) : ascii s -> ascii (strip s).
Proof.
  intros Hs. unfold strip, rstrip. unfold ascii.
  apply Forall_rev. apply ascii_lstrip. apply Forall_rev.
  apply ascii_lstrip. exact Hs.
Qed.

Lemma lstrip_map_ascii_upper (s : str) :
  ascii s -> lstrip (map ascii_upper s) = map ascii_upper (lstrip s).
Proof.
  induction 1 as [|c s Hc _ IH]; simpl; [reflexivity|].
  rewrite isspace_ascii_upper by exact Hc.
  destruct (isspace c); [exact IH | reflexivity].
Qed.

Lemma strip_map_ascii_upper (s : str) :
  ascii s -> strip (map ascii_upper s) = map ascii_upper (strip s).
Proof.
  intros Hs. unfold strip, rstrip.
  rewrite lstrip_map_ascii_upper by exact Hs.
  rewrite <- map_rev.
  rewrite lstrip_map_ascii_upper by (apply Forall_rev, ascii_lstrip, Hs).
  rewrite map_rev. reflexivity.
Qed.

(** On ASCII text, trimming and uppercasing can be done in either
    order. *)
Lemma upper_strip_ascii {U : Unicode} (s : str) :
  ascii s -> upper (strip s) = strip (upper s).
Proof.
  intros Hs. rewrite (upper_ascii s Hs).
  rewrite (upper_ascii (strip s) (ascii_strip s Hs)).
  symmetry. apply strip_map_ascii_upper. exact Hs.
Qed.

(** X4.  Two ASCII queries that differ only in the case of their letters
    fare the same in the read-only check. *)
Theorem is_read_only_ignores_case {U : Unicode} (q1 q2 : str) :
  ascii q1 -> ascii q2 -> upper q1 = upper q2 ->
  is_read_only q1 = is_read_only q2.
Proof.
  intros H1 H2 Hsame. unfold is_read_only.
  rewrite (upper_strip_ascii q1 H1), (upper_strip_ascii q2 H2), Hsame. reflexivity.
Qed.

Lemma is_read_only_ignores_case_witness :
  ascii (lit "Select 1") /\ ascii (lit "sELECT 1")
  /\ is_read_only (U := sample_unicode) (lit "Select 1")
     = is_read_only (U := sample_unicode) (lit "sELECT 1").
Proof.
  assert (H1 : ascii (lit "Select 1")) by (repeat constructor).
  assert (H2 : ascii (lit "sELECT 1")) by (repeat constructor).
  split; [exact H1|]. split; [exact H2|].
  exact (is_read_only_ignores_case (U := sample_unicode)
           (lit "Select 1") (lit "sELECT 1") H1 H2 eq_refl).
Defined.

(* ================================================================= *)
(** ** How the tools treat the connection *)

Section Guarded.
Context {D : Driver}.

(** Every tool opens a cursor first, inside its [try]. *)
Lemma guarded_closed {A} (m : M A) (msg : str) (w : World) :
  closed (db w) = true ->
  try_log (cursor ;;; m) msg w = (with_failure w msg, Raise connection_closed).
Proof.
  intros Hc. unfold_monad. rewrite Hc. reflexivity.
Qed.

(** An exception of the first statement ends the tool. *)
Lemma guarded_statement_raises {A} (q : query) (p : option (list value))
    (k : option (list row) -> M A) (msg : str) (w : World)
    (s' : ServerState) (e : exn) :
  closed (db w) = false ->
  pg_execute (server (db w)) q p = (s', ExecRaises e) ->
  try_log (cursor ;;; r <- execute q p ;; k r) msg w
  = (after_raise (after_statement w s' (q, p)) e msg, Raise e).
Proof.
  intros Hopen Hrun. unfold_monad. rewrite Hopen, Hrun. cbn.
  rewrite Hopen. unfold after_raise.
  destruct (is_exception (exn_class_of e)); reflexivity.
Qed.

Lemma quiet_ret {A} (a : A) : quiet (ret a).
Proof. intros w. cbn. split; [reflexivity|]. split; [exists []; symmetry; apply app_nil_r | reflexivity]. Qed.

Lemma quiet_raise {A} (e : exn) : quiet (raise (A := A) e).
Proof. intros w. cbn. split; [reflexivity|]. split; [exists []; symmetry; apply app_nil_r | reflexivity]. Qed.

Lemma quiet_bind {A B} (m : M A) (k : A -> M B) :
  quiet m -> (forall a, quiet (k a)) -> quiet (bind m k).
Proof.
  intros Hm Hk w. unfold bind. specialize (Hm w).
  destruct (m w) as [w1 [a | e]]; cbn in Hm |- *; [|exact Hm].
  destruct Hm as [Hc [[more Hs] Hl]].
  destruct (Hk a w1) as [Hc' [[more' Hs'] Hl']].
  split; [congruence|]. split; [|congruence].
  exists (more ++ more'). rewrite Hs', Hs, app_assoc. reflexivity.
Qed.

Lemma quiet_cursor : quiet cursor.
Proof.
  intros w. unfold cursor. destruct (closed (db w)) eqn:Hc; cbn; rewrite Hc;
    (split; [reflexivity|]; split; [exists []; symmetry; apply app_nil_r | reflexivity]).
Qed.

Lemma quiet_execute (q : query) (p : option (list value)) : quiet (execute q p).
Proof.
  intros w. unfold execute.
  destruct (pg_execute (server (db w)) q p) as [s' [e | r]]; cbn;
    (split; [reflexivity|]; split; [exists [(q, p)]; reflexivity | reflexivity]).
Qed.

Lemma quiet_fetchall (r : option (list row)) : quiet (fetchall r).
Proof. destruct r; [apply quiet_ret | apply quiet_raise]. Qed.

Lemma quiet_fetchone (r : option (list row)) : quiet (fetchone r).
Proof. destruct r as [[|x rows]|]; try apply quiet_ret. apply quiet_raise. Qed.

Lemma quiet_item_or (r : option row) (key : str) (default : value) :
  quiet (item_or r key default).
Proof.
  destruct r as [[|kv d]|]; try apply quiet_ret.
  unfold item_or. destruct (dict_get (kv :: d) key); [apply quiet_ret | apply quiet_raise].
Qed.

(** Around a quiet body, [try: ... except: log; raise] adds the failure
    record exactly when the body raises. *)
Lemma try_log_quiet {A} (m : M A) (msg : str) (w : World) :
  quiet m ->
  closed (db (fst (try_log m msg w))) = closed (db w)
  /\ (exists more, sent (db (fst (try_log m msg w))) = sent (db w) ++ more)
  /\ logged (fst (try_log m msg w))
     = logged w ++ logged_by (snd (try_log m msg w)) msg.
Proof.
  intros Hm. unfold try_log. specialize (Hm w).
  destruct (m w) as [w1 [a | e]]; cbn in Hm |- *;
    [|destruct (is_exception (exn_class_of e)) eqn:He; cbn; rewrite ?He];
    destruct Hm as [Hc [Hs Hl]]; (split; [exact Hc|]; split; [exact Hs|]).
  - rewrite app_nil_r. exact Hl.
  - rewrite Hl. reflexivity.
  - rewrite app_nil_r. exact Hl.
Qed.

End Guarded.

Create HintDb quiet.

#[local] Hint Resolve quiet_ret quiet_raise quiet_cursor quiet_execute
  quiet_fetchall quiet_fetchone quiet_item_or : quiet.

Ltac quiet_body :=
  repeat first [ apply quiet_bind; [|intro]
               | solve [auto with quiet]
               | match goal with |- quiet (match ?x with _ => _ end) => destruct x end ].

Lemma list_tables_body_quiet {D : Driver} (w : World) :
  closed (db (fst (list_tables w))) = closed (db w)
  /\ (exists more, sent (db (fst (list_tables w))) = sent (db w) ++ more)
  /\ logged (fst (list_tables w))
     = logged w ++ logged_by (snd (list_tables w)) (lit "Failed to list tables").
Proof. unfold list_tables. apply try_log_quiet. quiet_body. Qed.

Lemma get_table_schema_body_quiet {D : Driver} (name : str) (w : World) :
  closed (db (fst (get_table_schema name w))) = closed (db w)
  /\ (exists more, sent (db (fst (get_table_schema name w))) = sent (db w) ++ more)
  /\ logged (fst (get_table_schema name w))
     = logged w ++ logged_by (snd (get_table_schema name w))
                     (lit "Failed to get table schema for " ++ name).
Proof. unfold get_table_schema. apply try_log_quiet. quiet_body. Qed.

Lemma get_table_stats_body_quiet {D : Driver} (name : str) (w : World) :
  closed (db (fst (get_table_stats name w))) = closed (db w)
  /\ (exists more, sent (db (fst (get_table_stats name w))) = sent (db w) ++ more)
  /\ logged (fst (get_table_stats name w))
     = logged w ++ logged_by (snd (get_table_stats name w))
                     (lit "Failed to get table stats for " ++ name).
Proof. unfold get_table_stats. apply try_log_quiet. quiet_body. Qed.

Lemma execute_query_body_quiet {U : Unicode} {D : Driver} (query : str) (w : World) :
  closed (db (fst (execute_query query w))) = closed (db w)
  /\ (exists more, sent (db (fst (execute_query query w))) = sent (db w) ++ more)
  /\ logged (fst (execute_query query w))
     = logged w ++ logged_by (snd (execute_query query w))
                     (lit "Failed to execute query").
Proof.
  unfold execute_query. destruct (is_read_only query); cbn [negb].
  - apply try_log_quiet. quiet_body.
  - cbn. split; [reflexivity|]. split; [exists []|]; rewrite app_nil_r; reflexivity.
Qed.

Lemma grows_of_quiet {D : Driver} {A} (w : World) (r : World * result A) (msg : str) :
  closed (db (fst r)) = closed (db w)
  /\ (exists more, sent (db (fst r)) = sent (db w) ++ more)
  /\ logged (fst r) = logged w ++ logged_by (snd r) msg ->
  grows w (fst r).
Proof.
  intros [Hc [Hs Hl]]. split; [exact Hc|]. split; [exact Hs|].
  eexists. exact Hl.
Qed.

(** X5.  No tool closes or reopens the connection, and none removes or
    reorders what had been sent or logged before the call: a call only
    appends. *)
Theorem tools_only_append {U : Unicode} {D : Driver} (w : World) (name query : str) :
  grows w (fst (list_tables w))
  /\ grows w (fst (get_table_schema name w))
  /\ grows w (fst (execute_query query w))
  /\ grows w (fst (get_table_stats name w)).
Proof.
  split; [|split; [|split]].
  - eapply grows_of_quiet. apply list_tables_body_quiet.
  - eapply grows_of_quiet. apply get_table_schema_body_quiet.
  - eapply grows_of_quiet. apply execute_query_body_quiet.
  - eapply grows_of_quiet. apply get_table_stats_body_quiet.
Qed.

(** X6.  A tool writes to the log exactly when it raises an [Exception],
    and then one ERROR record with its own message.  A call that returns,
    the rejection of a query included, logs nothing, and neither does a
    call ended by an exception that is no [Exception], such as a
    cancellation: the [except Exception] clause does not catch it. *)
Theorem tools_log_one_record_per_failure {U : Unicode} {D : Driver}
    (w : World) (name query : str) :
  logged (fst (list_tables w))
  = logged w ++ logged_by (snd (list_tables w)) (lit "Failed to list tables")
  /\ logged (fst (get_table_schema name w))
     = logged w ++ logged_by (snd (get_table_schema name w))
                     (lit "Failed to get table schema for " ++ name)
  /\ logged (fst (execute_query query w))
     = logged w ++ logged_by (snd (execute_query query w))
                     (lit "Failed to execute query")
  /\ logged (fst (get_table_stats name w))
     = logged w ++ logged_by (snd (get_table_stats name w))
                     (lit "Failed to get table stats for " ++ name).
Proof.
  split; [|split; [|split]].
  - apply list_tables_body_quiet.
  - apply get_table_schema_body_quiet.
  - apply execute_query_body_quiet.
  - apply get_table_stats_body_quiet.
Qed.

(** X7.  On a closed connection every tool raises the driver's error for
    a closed connection, sends nothing and logs its failure; a query that
    fails the read-only check is still answered with the rejection. *)
Theorem tools_fail_on_closed_connection {U : Unicode} {D : Driver}
    (w : World) (name query : str) :
  closed (db w) = true ->
  list_tables w
  = (with_failure w (lit "Failed to list tables"), Raise connection_closed)
  /\ get_table_schema name w
     = (with_failure w (lit "Failed to get table schema for " ++ name),
        Raise connection_closed)
  /\ get_table_stats name w
     = (with_failure w (lit "Failed to get table stats for " ++ name),
        Raise connection_closed)
  /\ execute_query query w
     = if is_read_only query
       then (with_failure w (lit "Failed to execute query"), Raise connection_closed)
       else (w, Return rejection).
Proof.
  intros Hc. split; [|split; [|split]].
  - apply guarded_closed. exact Hc.
  - apply guarded_closed. exact Hc.
  - apply guarded_closed. exact Hc.
  - unfold execute_query. destruct (is_read_only query); cbn [negb].
    + apply guarded_closed. exact Hc.
    + reflexivity.
Qed.

Lemma tools_fail_on_closed_connection_witness :
  closed (db closed_world) = true
  /\ list_tables closed_world
     = (with_failure closed_world (lit "Failed to list tables"),
        Raise connection_closed)
  /\ execute_query (U := sample_unicode) (lit "select 1") closed_world
     = (with_failure closed_world (lit "Failed to execute query"),
        Raise connection_closed).
Proof.
  split; [reflexivity|].
  destruct (tools_fail_on_closed_connection (U := sample_unicode) (D := scripted)
              closed_world (lit "users") (lit "select 1") eq_refl)
    as [Hlist [_ [_ Hquery]]].
  split; [exact Hlist | exact Hquery].
Defined.

(** X8.  When the driver raises on a tool's first statement, the tool
    raises that same exception: the statement counts as sent and the
    server is in the state the driver left.  The failure is logged once
    when the exception is an [Exception]; an exception that is none, such
    as a cancellation, passes through the [except] clause and leaves the
    log as it was. *)
Theorem tool_faults_are_reraised {U : Unicode} {D : Driver}
    (w : World) (name query : str) (s' : ServerState) (e : exn) :
  closed (db w) = false ->
  (pg_execute (server (db w)) (QStr list_tables_query) None = (s', ExecRaises e) ->
   list_tables w
   = (after_raise (after_statement w s' (QStr list_tables_query, None)) e
        (lit "Failed to list tables"),
      Raise e))
  /\ (pg_execute (server (db w)) (QStr table_schema_query) (Some [VStr name])
      = (s', ExecRaises e) ->
      get_table_schema name w
      = (after_raise
           (after_statement w s' (QStr table_schema_query, Some [VStr name])) e
           (lit "Failed to get table schema for " ++ name),
         Raise e))
  /\ (is_read_only query = true ->
      pg_execute (server (db w)) (QSql (SQL query)) None = (s', ExecRaises e) ->
      execute_query query w
      = (after_raise (after_statement w s' (QSql (SQL query), None)) e
           (lit "Failed to execute query"),
         Raise e))
  /\ (pg_execute (server (db w)) (count_query name) None = (s', ExecRaises e) ->
      get_table_stats name w
      = (after_raise (after_statement w s' (count_query name, None)) e
           (lit "Failed to get table stats for " ++ name),
         Raise e))
  /\ (is_exception (exn_class_of e) = true ->
      forall w' msg, logged (after_raise w' e msg) = logged w' ++ [failure msg])
  /\ (is_exception (exn_class_of e) = false ->
      forall w' msg, after_raise w' e msg = w').
Proof.
  intros Hopen. repeat split.
  - intros Hrun. apply guarded_statement_raises; assumption.
  - intros Hrun. apply guarded_statement_raises; assumption.
  - intros Hyes Hrun. unfold execute_query. rewrite Hyes. cbn [negb].
    apply guarded_statement_raises; assumption.
  - intros Hrun. apply guarded_statement_raises; assumption.
  - intros He w' msg. unfold after_raise. rewrite He. reflexivity.
  - intros He w' msg. unfold after_raise. rewrite He. reflexivity.
Qed.

Lemma tool_faults_are_reraised_witness :
  closed (db (scripted_world [ExecRaises (Exn CancelledError [])])) = false
  /\ list_tables (scripted_world [ExecRaises (Exn CancelledError [])])
     = (after_statement (scripted_world [ExecRaises (Exn CancelledError [])])
          [] (QStr list_tables_query, None),
        Raise (Exn CancelledError []))
  /\ closed (db (scripted_world
                   [ExecRaises (Exn OtherError (lit "permission denied"))]))
     = false
  /\ list_tables (scripted_world [ExecRaises (Exn OtherError (lit "permission denied"))])
     = (with_failure
          (after_statement
             (scripted_world [ExecRaises (Exn OtherError (lit "permission denied"))])
             [] (QStr list_tables_query, None))
          (lit "Failed to list tables"),
        Raise (Exn OtherError (lit "permission denied"))).
Proof.
  split; [reflexivity|]. split; [|split; [reflexivity|]].
  - exact (proj1 (tool_faults_are_reraised (U := sample_unicode) (D := scripted)
                    (scripted_world [ExecRaises (Exn CancelledError [])])
                    (lit "users") (lit "select 1") []
                    (Exn CancelledError []) eq_refl)
             eq_refl).
  - exact (proj1 (tool_faults_are_reraised (U := sample_unicode) (D := scripted)
                    (scripted_world
                       [ExecRaises (Exn OtherError (lit "permission denied"))])
                    (lit "users") (lit "select 1") []
                    (Exn OtherError (lit "permission denied")) eq_refl)
             eq_refl).
Defined.

(* ================================================================= *)
(** ** The statements the table tools send *)

(** X9.  [list_tables] and [get_table_schema] send one statement on an
    open connection and none on a closed one.  The text of the statement
    is fixed: the table name asked for travels as a bound parameter and
    never becomes part of the SQL. *)
Theorem catalog_tools_send_one_statement {D : Driver} (w : World) (name : str) :
  sent (db (fst (list_tables w)))
  = sent (db w) ++ (if closed (db w) then [] else [(QStr list_tables_query, None)])
  /\ sent (db (fst (get_table_schema name w)))
     = sent (db w)
       ++ (if closed (db w) then []
           else [(QStr table_schema_query, Some [VStr name])]).
Proof.
  split.
  - unfold list_tables. unfold_monad. destruct (closed (db w)) eqn:Hc.
    + cbn. rewrite app_nil_r. reflexivity.
    + destruct (pg_execute (server (db w)) (QStr list_tables_query) None)
        as [s' [e | [rows |]]]; cbn;
        try destruct (is_exception (exn_class_of e)); reflexivity.
  - unfold get_table_schema. unfold_monad. destruct (closed (db w)) eqn:Hc.
    + cbn. rewrite app_nil_r. reflexivity.
    + destruct (pg_execute (server (db w)) (QStr table_schema_query)
                  (Some [VStr name])) as [s' [e | [[|c cs] |]]]; cbn;
        try destruct (is_exception (exn_class_of e)); reflexivity.
Qed.

(** X10.  [get_table_stats] with a row from each sub-query returns the
    count of the first counting row and the three sizes of the first size
    row; it has then sent the counting statement, with the table name as a
    quoted identifier, and the size statement, with the name bound three
    times, in this order, and has logged nothing. *)
Theorem get_table_stats_reads_first_rows {D : Driver}
    (name : str) (w : World) (s1 s2 : ServerState)
    (r1 r2 : row) (rest1 rest2 : list row) (count total table indexes : value) :
  closed (db w) = false ->
  pg_execute (server (db w)) (count_query name) None
  = (s1, ExecDone (Some (r1 :: rest1))) ->
  pg_execute s1 size_query (Some [VStr name; VStr name; VStr name])
  = (s2, ExecDone (Some (r2 :: rest2))) ->
  dict_get r1 (lit "count") = Some count ->
  dict_get r2 (lit "total_size") = Some total ->
  dict_get r2 (lit "table_size") = Some table ->
  dict_get r2 (lit "indexes_size") = Some indexes ->
  get_table_stats name w
  = (after_statement (after_statement w s1 (count_query name, None)) s2
       (size_query, Some [VStr name; VStr name; VStr name]),
     Return [(lit "table_name", VStr name);
             (lit "row_count", count);
             (lit "total_size", total);
             (lit "table_size", table);
             (lit "indexes_size", indexes)])
  /\ count_query name
     = QSql (Composed [SQL (lit "SELECT COUNT(*) as count FROM "); Identifier name]).
Proof.
  intros Hopen Hcount Hsize Hc Ht Hb Hi. split; [|reflexivity].
  unfold get_table_stats. unfold_monad. rewrite Hopen, Hcount.
  rewrite (item_or_present _ _ _ _ Hc).
  cbn -[item_or lit]. rewrite ?Hopen. cbn -[item_or lit]. rewrite Hsize.
  rewrite (item_or_present _ _ _ _ Ht), (item_or_present _ _ _ _ Hb),
    (item_or_present _ _ _ _ Hi).
  cbn -[lit]. rewrite ?Hopen. reflexivity.
Qed.

Lemma get_table_stats_reads_first_rows_witness :
  snd (get_table_stats (lit "users")
         (scripted_world
            [ExecDone (Some [[(lit "count", VInt 42)]]);
             ExecDone (Some [[(lit "total_size", VStr (lit "64 kB"));
                              (lit "table_size", VStr (lit "16 kB"));
                              (lit "indexes_size", VStr (lit "48 kB"))]])]))
  = Return [(lit "table_name", VStr (lit "users"));
            (lit "row_count", VInt 42);
            (lit "total_size", VStr (lit "64 kB"));
            (lit "table_size", VStr (lit "16 kB"));
            (lit "indexes_size", VStr (lit "48 kB"))].
Proof.
  rewrite (proj1 (get_table_stats_reads_first_rows (D := scripted) (lit "users")
                    (scripted_world
                       [ExecDone (Some [[(lit "count", VInt 42)]]);
                        ExecDone (Some [[(lit "total_size", VStr (lit "64 kB"));
                                         (lit "table_size", VStr (lit "16 kB"));
                                         (lit "indexes_size", VStr (lit "48 kB"))]])])
                    [ExecDone (Some [[(lit "total_size", VStr (lit "64 kB"));
                                      (lit "table_size", VStr (lit "16 kB"));
                                      (lit "indexes_size", VStr (lit "48 kB"))]])]
                    [] [(lit "count", VInt 42)]
                    [(lit "total_size", VStr (lit "64 kB"));
                     (lit "table_size", VStr (lit "16 kB"));
                     (lit "indexes_size", VStr (lit "48 kB"))]
                    [] [] (VInt 42) (VStr (lit "64 kB")) (VStr (lit "16 kB"))
                    (VStr (lit "48 kB"))
                    eq_refl eq_refl eq_refl eq_refl eq_refl eq_refl eq_refl)).
  reflexivity.
Defined.

(** X11.  When the size statement of [get_table_stats] raises, the tool
    raises that exception; both statements have been sent and the count
    already obtained is dropped.  The failure is logged once when the
    exception is an [Exception], and not at all otherwise. *)
Theorem get_table_stats_size_fault {D : Driver}
    (name : str) (w : World) (s1 s2 : ServerState)
    (rows1 : list row) (e : exn) :
  closed (db w) = false ->
  pg_execute (server (db w)) (count_query name) None
  = (s1, ExecDone (Some rows1)) ->
  (rows1 = []
   \/ exists r rest count, rows1 = r :: rest /\ dict_get r (lit "count") = Some count) ->
  pg_execute s1 size_query (Some [VStr name; VStr name; VStr name])
  = (s2, ExecRaises e) ->
  get_table_stats name w
  = ((if is_exception (exn_class_of e)
      then with_failure
             (after_statement (after_statement w s1 (count_query name, None)) s2
                (size_query, Some [VStr name; VStr name; VStr name]))
             (lit "Failed to get table stats for " ++ name)
      else after_statement (after_statement w s1 (count_query name, None)) s2
             (size_query, Some [VStr name; VStr name; VStr name])),
     Raise e).
Proof.
  intros Hopen Hcount Hrows Hsize.
  unfold get_table_stats. unfold_monad. rewrite Hopen, Hcount.
  destruct Hrows as [-> | [r [rest [count [-> Hc]]]]].
  - cbn -[lit]. rewrite ?Hopen. cbn -[lit]. rewrite Hsize.
    cbn -[lit]. rewrite ?Hopen.
    destruct (is_exception (exn_class_of e)); reflexivity.
  - rewrite (item_or_present _ _ _ _ Hc).
    cbn -[lit]. rewrite ?Hopen. cbn -[lit]. rewrite Hsize.
    cbn -[lit]. rewrite ?Hopen.
    destruct (is_exception (exn_class_of e)); reflexivity.
Qed.

Lemma get_table_stats_size_fault_witness :
  get_table_stats (lit "users")
    (scripted_world
       [ExecDone (Some [[(lit "count", VInt 42)]]);
        ExecRaises (Exn CancelledError [])])
  = (after_statement
       (after_statement
          (scripted_world
             [ExecDone (Some [[(lit "count", VInt 42)]]);
              ExecRaises (Exn CancelledError [])])
          [ExecRaises (Exn CancelledError [])] (count_query (lit "users"), None))
       [] (size_query, Some [VStr (lit "users"); VStr (lit "users"); VStr (lit "users")]),
     Raise (Exn CancelledError [])).
Proof.
  exact (get_table_stats_size_fault (D := scripted) (lit "users")
           (scripted_world
              [ExecDone (Some [[(lit "count", VInt 42)]]);
               ExecRaises (Exn CancelledError [])])
           [ExecRaises (Exn CancelledError [])] []
           [[(lit "count", VInt 42)]]
           (Exn CancelledError [])
           eq_refl eq_refl
           (or_intror (ex_intro _ [(lit "count", VInt 42)]
                         (ex_intro _ []
                            (ex_intro _ (VInt 42) (conj eq_refl eq_refl)))))
           eq_refl).
Defined.

(** X12.  A counting row that has columns but none named count makes
    [get_table_stats] raise KeyError for that name, logged once; the size
    statement is not sent.  A counting row without any column counts as no
    row: the tool goes on with the count 0. *)
Theorem get_table_stats_missing_count {D : Driver}
    (name : str) (w : World) (s1 : ServerState) (r : row) (rest : list row) :
  closed (db w) = false ->
  pg_execute (server (db w)) (count_query name) None
  = (s1, ExecDone (Some (r :: rest))) ->
  dict_get r (lit "count") = None ->
  (r <> [] ->
   get_table_stats name w
   = (with_failure (after_statement w s1 (count_query name, None))
        (lit "Failed to get table stats for " ++ name),
      Raise (Exn KeyError (lit "'count'"))))
  /\ (r = [] ->
      forall s2, pg_execute s1 size_query (Some [VStr name; VStr name; VStr name])
                 = (s2, ExecDone (Some [])) ->
      snd (get_table_stats name w)
      = Return [(lit "table_name", VStr name);
                (lit "row_count", VInt 0);
                (lit "total_size", VStr (lit "Unknown"));
                (lit "table_size", VStr (lit "Unknown"));
                (lit "indexes_size", VStr (lit "Unknown"))]).
Proof.
  intros Hopen Hcount Hmiss.
  unfold get_table_stats. unfold_monad. rewrite Hopen, Hcount. split.
  - intros Hne. destruct r as [|kv r]; [congruence|].
    unfold item_or. rewrite Hmiss. cbn -[lit]. rewrite ?Hopen. reflexivity.
  - intros -> s2 Hsize. cbn -[lit]. rewrite ?Hopen. cbn -[lit]. rewrite Hsize.
    reflexivity.
Qed.

Lemma get_table_stats_missing_count_witness :
  snd (get_table_stats (lit "users")
         (scripted_world [ExecDone (Some [[(lit "n", VInt 42)]])]))
  = Raise (Exn KeyError (lit "'count'")).
Proof.
  rewrite (proj1 (get_table_stats_missing_count (D := scripted) (lit "users")
                    (scripted_world [ExecDone (Some [[(lit "n", VInt 42)]])])
                    [] [(lit "n", VInt 42)] [] eq_refl eq_refl eq_refl)).
  - reflexivity.
  - discriminate.
Defined.

(* ================================================================= *)
(** ** Rows passed through, and the schema of a table in the catalog *)

(** X13.  Whatever the database, the two catalog tools hand its rows on
    unchanged and in its order: [list_tables] with their number as
    [count], also when there is none; [get_table_schema], given at least
    one row, with their number as [column_count] and without an error
    entry.  Nothing is logged. *)
Theorem catalog_tools_pass_rows {D : Driver}
    (w : World) (name : str) (s' : ServerState) (rows : list row) :
  closed (db w) = false ->
  (pg_execute (server (db w)) (QStr list_tables_query) None
   = (s', ExecDone (Some rows)) ->
   list_tables w
   = (after_statement w s' (QStr list_tables_query, None),
      Return [(lit "tables", VList (map VDict rows));
              (lit "count", VInt (Z.of_nat (List.length rows)))]))
  /\ (pg_execute (server (db w)) (QStr table_schema_query) (Some [VStr name])
      = (s', ExecDone (Some rows)) ->
      rows <> [] ->
      get_table_schema name w
      = (after_statement w s' (QStr table_schema_query, Some [VStr name]),
         Return [(lit "table_name", VStr name);
                 (lit "columns", VList (map VDict rows));
                 (lit "column_count", VInt (Z.of_nat (List.length rows)))])).
Proof.
  intros Hopen. split.
  - intros Hrun. unfold list_tables. unfold_monad. rewrite Hopen, Hrun.
    cbn -[lit list_tables_query]. rewrite ?Hopen. reflexivity.
  - intros Hrun Hne. unfold get_table_schema. unfold_monad. rewrite Hopen, Hrun.
    destruct rows as [|c cs]; [congruence|].
    cbn -[lit table_schema_query]. rewrite ?Hopen. reflexivity.
Qed.

Lemma catalog_tools_pass_rows_witness :
  closed (db (scripted_world [ExecDone (Some [])])) = false
  /\ snd (list_tables (scripted_world [ExecDone (Some [])]))
     = Return [(lit "tables", VList []); (lit "count", VInt 0)].
Proof.
  split; [reflexivity|].
  rewrite (proj1 (catalog_tools_pass_rows (D := scripted)
                    (scripted_world [ExecDone (Some [])]) (lit "users") [] []
                    eq_refl) eq_refl).
  reflexivity.
Defined.

Lemma StronglySorted_weaken {A} (R R' : A -> A -> Prop) (l : list A) :
  (forall a b, R a b -> R' a b) -> StronglySorted R l -> StronglySorted R' l.
Proof.
  intros Himp. induction 1 as [|x l Hs IH Hx]; constructor; [exact IH|].
  eapply Forall_impl; [|exact Hx]. intros y. apply Himp.
Qed.

Lemma by_ordinal_position_total (a b : column_entry) :
  by_ordinal_position a b = true \/ by_ordinal_position b a = true.
Proof. unfold by_ordinal_position. rewrite !Z.leb_le. lia. Qed.

Lemma by_ordinal_position_trans (a b c : column_entry) :
  by_ordinal_position a b = true -> by_ordinal_position b c = true ->
  by_ordinal_position a c = true.
Proof. unfold by_ordinal_position. rewrite !Z.leb_le. lia. Qed.

(** X14.  Against a catalog, [get_table_schema] reports a table as not
    found exactly when the catalog holds no column of the public schema
    for that name, so also for a table that lives in another schema;
    otherwise it returns every such column once, in ascending ordinal
    position, and their number. *)
Theorem get_table_schema_in_catalog (initial : catalog)
    (w : World (D := catalog_driver initial)) (name : str) :
  closed (db w) = false ->
  (public_columns (server (db w)) name = [] ->
   snd (get_table_schema name w)
   = Return [(lit "error", VStr (lit "Table '" ++ name ++ lit "' not found"));
             (lit "table_name", VStr name);
             (lit "columns", VList [])])
  /\ (public_columns (server (db w)) name <> [] ->
      exists entries,
        Permutation (public_columns (server (db w)) name) entries
        /\ StronglySorted
             (fun a b => (ordinal_position a <= ordinal_position b)%Z) entries
        /\ snd (get_table_schema name w)
           = Return [(lit "table_name", VStr name);
                     (lit "columns", VList (map VDict (map column_row entries)));
                     (lit "column_count",
                      VInt (Z.of_nat
                              (List.length (public_columns (server (db w)) name))))]).
Proof.
  intros Hopen.
  assert (Hrun : pg_execute (server (db w)) (QStr table_schema_query)
                   (Some [VStr name])
                 = (server (db w),
                    ExecDone (Some (map column_row
                                      (order_by by_ordinal_position
                                         (public_columns (server (db w)) name)))))).
  { apply (catalog_describes_table initial (server (db w)) name). }
  split.
  - intros Hnone. rewrite Hnone in Hrun.
    unfold get_table_schema. unfold_monad. rewrite Hopen, Hrun. reflexivity.
  - intros Hsome.
    pose proof (order_by_perm _ by_ordinal_position
                  (public_columns (server (db w)) name)) as Hperm.
    exists (order_by by_ordinal_position (public_columns (server (db w)) name)).
    split; [exact Hperm|]. split.
    + eapply StronglySorted_weaken;
        [|apply (order_by_sorted _ by_ordinal_position
                   by_ordinal_position_total by_ordinal_position_trans)].
      intros a b Hab. apply Z.leb_le. exact Hab.
    + unfold get_table_schema. unfold_monad. rewrite Hopen, Hrun.
      destruct (order_by by_ordinal_position (public_columns (server (db w)) name))
        as [|c cs] eqn:Hsorted.
      * apply Permutation_sym, Permutation_nil in Hperm. congruence.
      * cbn -[lit]. rewrite (Permutation_length Hperm).
        unfold len. cbn [List.length]. rewrite length_map. reflexivity.
Qed.

Lemma get_table_schema_in_catalog_witness :
  closed (db sample_catalog_world) = false
  /\ public_columns sample_catalog (lit "projects") <> []
  /\ exists entries,
       Permutation (public_columns sample_catalog (lit "projects")) entries
       /\ StronglySorted
            (fun a b => (ordinal_position a <= ordinal_position b)%Z) entries
       /\ snd (get_table_schema (lit "projects") sample_catalog_world)
          = Return [(lit "table_name", VStr (lit "projects"));
                    (lit "columns", VList (map VDict (map column_row entries)));
                    (lit "column_count",
                     VInt (Z.of_nat
                             (List.length
                                (public_columns sample_catalog (lit "projects")))))].
Proof.
  assert (Hne : public_columns sample_catalog (lit "projects") <> [])
    by (vm_compute; discriminate).
  split; [reflexivity|]. split; [exact Hne|].
  exact (proj2 (get_table_schema_in_catalog sample_catalog sample_catalog_world
                  (lit "projects") eq_refl) Hne).
Defined.

(* ================================================================= *)
(** ** Further properties of the connection set-up *)

Lemma connects_app (a b : list event) : connects (a ++ b) = connects a + connects b.
Proof.
  induction a as [|[r | c |] a IH]; simpl; rewrite ?IH; reflexivity.
Qed.

Lemma closes_app (a b : list event) : closes (a ++ b) = closes a + closes b.
Proof.
  induction a as [|[r | c |] a IH]; simpl; rewrite ?IH; reflexivity.
Qed.

Lemma log_records_app (a b : list event) :
  log_records (a ++ b) = log_records a ++ log_records b.
Proof.
  induction a as [|[r | c |] a IH]; simpl; rewrite ?IH; reflexivity.
Qed.

Lemma connection_error_counts (e : exn) :
  connects (connection_error e) = 0 /\ closes (connection_error e) = 0.
Proof.
  unfold connection_error. destruct (exn_class_of e); split; reflexivity.
Qed.

(** Resolving the target logs at most the note on composing it. *)
Lemma resolve_database_url_events (env : environ) :
  fst (resolve_database_url env) = []
  \/ fst (resolve_database_url env)
     = [info (lit "Constructed database URL from individual components")].
Proof.
  unfold resolve_database_url.
  destruct (getenv env (lit "DATABASE_URL")) as [[|c u]|];
    try (left; reflexivity);
    destruct (getenv_default env (lit "DATABASE_PASSWORD") []);
    (left; reflexivity) || (right; reflexivity).
Qed.

(** Set-up seen as a whole: the events of resolving the target, and,
    when a target was resolved, the announcement, the attempt and what
    the log receives afterwards. *)
Lemma database_lifespan_enter_events {D : Driver} (env : environ) :
  (exists e, snd (resolve_database_url env) = Raise e
             /\ database_lifespan_enter env = (fst (resolve_database_url env), Raise e))
  \/ (exists target last,
        snd (resolve_database_url env) = Return target
        /\ fst (database_lifespan_enter env)
           = fst (resolve_database_url env)
             ++ [info (connecting_msg env); Connect target] ++ last
        /\ connects last = 0 /\ closes last = 0).
Proof.
  unfold database_lifespan_enter.
  destruct (resolve_database_url env) as [ev [target | e]]; cbn [fst snd].
  - right. exists target.
    destruct (pg_connect target) as [e | [s |]]; cbn [fst].
    + exists (connection_error e). split; [reflexivity|].
      split; [rewrite <- app_assoc; reflexivity|].
      apply connection_error_counts.
    + eexists. split; [reflexivity|].
      split; [rewrite <- app_assoc; reflexivity|].
      split; reflexivity.
    + exists (connection_error connect_failed). split; [reflexivity|].
      split; [rewrite <- app_assoc; reflexivity|].
      apply connection_error_counts.
  - left. exists e. split; reflexivity.
Qed.

Lemma env_name_differs :
  lit "DATABASE_HOST" <> lit "DATABASE_PASSWORD"
  /\ lit "DATABASE_PORT" <> lit "DATABASE_PASSWORD"
  /\ lit "DATABASE_NAME" <> lit "DATABASE_PASSWORD"
  /\ lit "DATABASE_USER" <> lit "DATABASE_PASSWORD"
  /\ lit "DATABASE_URL" <> lit "DATABASE_PASSWORD".
Proof. repeat split; vm_compute; discriminate. Qed.

(** X15.  With only a password configured, the target is composed from
    the defaults: user postgres, host localhost, port 5432, database
    postgres.  Set-up logs that it composed the target, announces the
    connection and attempts it; the announcement reads the variables
    without their defaults and so names None for host, port and
    database. *)
Theorem lifespan_composes_default_target {D : Driver} (env : environ) (password : str) :
  (getenv env (lit "DATABASE_URL") = None
   \/ getenv env (lit "DATABASE_URL") = Some []) ->
  getenv env (lit "DATABASE_PASSWORD") = Some password -> password <> [] ->
  getenv env (lit "DATABASE_HOST") = None ->
  getenv env (lit "DATABASE_USER") = None ->
  getenv env (lit "DATABASE_PORT") = None ->
  getenv env (lit "DATABASE_NAME") = None ->
  exists tail,
    fst (database_lifespan_enter env)
    = [info (lit "Constructed database URL from individual components");
       info (lit "Connecting to PostgreSQL database at None:None/None...");
       Connect (lit "postgresql://postgres:" ++ password
                ++ lit "@localhost:5432/postgres")]
      ++ tail.
Proof.
  intros Hurl Hpw Hne Hhost Huser Hport Hname.
  assert (Hres : resolve_database_url env
                 = ([info (lit "Constructed database URL from individual components")],
                    Return (lit "postgresql://postgres:" ++ password
                            ++ lit "@localhost:5432/postgres"))).
  { unfold resolve_database_url, getenv_default.
    rewrite Hpw, Hhost, Huser, Hport, Hname.
    destruct password as [|c p]; [congruence|].
    destruct Hurl as [-> | ->]; cbn -[lit]; repeat f_equal;
      rewrite <- ?app_assoc; reflexivity. }
  unfold database_lifespan_enter. rewrite Hres.
  unfold connecting_msg. rewrite Hhost, Hport, Hname.
  destruct (pg_connect _) as [e | [s |]]; eexists; cbn -[lit]; reflexivity.
Qed.

Lemma lifespan_composes_default_target_witness :
  exists tail,
    fst (database_lifespan_enter (D := scripted)
           [(lit "DATABASE_PASSWORD", lit "s3cret")])
    = [info (lit "Constructed database URL from individual components");
       info (lit "Connecting to PostgreSQL database at None:None/None...");
       Connect (lit "postgresql://postgres:" ++ lit "s3cret"
                ++ lit "@localhost:5432/postgres")]
      ++ tail.
Proof.
  apply (lifespan_composes_default_target (D := scripted)
           [(lit "DATABASE_PASSWORD", lit "s3cret")] (lit "s3cret")
           (or_introl eq_refl) eq_refl).
  - discriminate.
  - reflexivity.
  - reflexivity.
  - reflexivity.
  - reflexivity.
Defined.

(** X16.  A supplied connection string takes priority: the target and the
    outcome of set-up depend on it alone, whatever the discrete
    variables, the password included, are set to. *)
Theorem lifespan_url_overrides_fields {D : Driver} (env1 env2 : environ) (url : str) :
  getenv env1 (lit "DATABASE_URL") = Some url ->
  getenv env2 (lit "DATABASE_URL") = Some url ->
  url <> [] ->
  resolve_database_url env1 = resolve_database_url env2
  /\ snd (database_lifespan_enter env1) = snd (database_lifespan_enter env2)
  /\ connects (fst (database_lifespan_enter env1)) = 1.
Proof.
  intros H1 H2 Hne.
  pose proof (resolve_database_url_supplied env1 url H1 Hne) as R1.
  pose proof (resolve_database_url_supplied env2 url H2 Hne) as R2.
  split; [congruence|].
  split.
  - unfold database_lifespan_enter. rewrite R1, R2.
    destruct (pg_connect (replace url sqlalchemy_prefix canonical_prefix))
      as [e | [s |]]; reflexivity.
  - destruct (database_lifespan_enter_events env1)
      as [[e [Hr _]] | [target [last [_ Hev]]]].
    + rewrite R1 in Hr. discriminate.
    + destruct Hev as [Hev [Hc0 _]].
      rewrite Hev, R1, !connects_app, Hc0. reflexivity.
Qed.

Lemma lifespan_url_overrides_fields_witness :
  snd (database_lifespan_enter (D := scripted)
         [(lit "DATABASE_URL", lit "postgresql://db/app")])
  = snd (database_lifespan_enter (D := scripted)
           [(lit "DATABASE_HOST", lit "elsewhere");
            (lit "DATABASE_PASSWORD", lit "s3cret");
            (lit "DATABASE_URL", lit "postgresql://db/app")]).
Proof.
  apply (lifespan_url_overrides_fields (D := scripted)
           [(lit "DATABASE_URL", lit "postgresql://db/app")]
           [(lit "DATABASE_HOST", lit "elsewhere");
            (lit "DATABASE_PASSWORD", lit "s3cret");
            (lit "DATABASE_URL", lit "postgresql://db/app")]
           (lit "postgresql://db/app") eq_refl eq_refl).
  discriminate.
Defined.

Lemma resolve_database_url_raises (env : environ) (e : exn) :
  snd (resolve_database_url env) = Raise e ->
  resolve_database_url env = ([], Raise password_required).
Proof.
  unfold resolve_database_url.
  destruct (getenv env (lit "DATABASE_URL")) as [[|c u]|]; try discriminate;
    destruct (getenv_default env (lit "DATABASE_PASSWORD") []);
    try discriminate; reflexivity.
Qed.

Lemma resolve_database_url_quiet (env : environ) :
  connects (fst (resolve_database_url env)) = 0
  /\ closes (fst (resolve_database_url env)) = 0.
Proof.
  destruct (resolve_database_url_events env) as [-> | ->]; split; reflexivity.
Qed.

Lemma database_lifespan_enter_closes_nothing {D : Driver} (env : environ) :
  closes (fst (database_lifespan_enter env)) = 0.
Proof.
  destruct (resolve_database_url_quiet env) as [_ Hx0].
  destruct (database_lifespan_enter_events env)
    as [[e [_ Hrun]] | [target [last [_ [Hev [_ Hxl]]]]]].
  - rewrite Hrun. exact Hx0.
  - rewrite Hev, !closes_app, Hx0, Hxl. reflexivity.
Qed.

(** X17.  Set-up attempts a connection at most once and closes nothing;
    it makes no attempt exactly when it ends, before any event, with the
    error for the missing password. *)
Theorem lifespan_attempts_once {D : Driver} (env : environ) :
  connects (fst (database_lifespan_enter env)) <= 1
  /\ closes (fst (database_lifespan_enter env)) = 0
  /\ (connects (fst (database_lifespan_enter env)) = 0
      <-> database_lifespan_enter env = ([], Raise password_required)).
Proof.
  destruct (resolve_database_url_quiet env) as [Hc0 Hx0].
  destruct (database_lifespan_enter_events env)
    as [[e [Hr Hrun]] | [target [last [Hr [Hev [Hcl Hxl]]]]]].
  - pose proof (resolve_database_url_raises env e Hr) as Hres.
    rewrite Hrun, Hres. cbn [fst connects closes].
    apply (f_equal snd) in Hres. cbn [snd] in Hres. rewrite Hr in Hres.
    injection Hres as ->.
    split; [lia|]. split; [reflexivity|]. split; reflexivity.
  - rewrite Hev, !connects_app, !closes_app, Hc0, Hx0, Hcl, Hxl. cbn.
    split; [lia|]. split; [reflexivity|]. split; [discriminate|].
    intros Hrun. rewrite Hrun in Hev. cbn [fst] in Hev.
    destruct (fst (resolve_database_url env)); discriminate.
Qed.

(** X18.  When the driver raises on connecting, set-up raises that same
    exception and closes nothing.  After the attempt the log receives one
    ERROR record with the message of the exception, introduced as a
    database connection error for an OperationalError and as an
    unexpected error for any other [Exception]; an exception that is no
    [Exception], such as a cancellation, is caught by neither clause and
    leaves no record. *)
Theorem lifespan_connect_failure {D : Driver} (env : environ) (target : str) (e : exn) :
  snd (resolve_database_url env) = Return target ->
  pg_connect target = ConnectRaises e ->
  snd (database_lifespan_enter env) = Raise e
  /\ closes (fst (database_lifespan_enter env)) = 0
  /\ exists before,
       (exn_class_of e = OperationalError ->
        fst (database_lifespan_enter env)
        = before ++ [Connect target;
                     error (lit "Database connection error: " ++ exn_msg e)])
       /\ (exn_class_of e <> OperationalError ->
           is_exception (exn_class_of e) = true ->
           fst (database_lifespan_enter env)
           = before ++ [Connect target;
                        error (lit "Unexpected error during database connection: "
                               ++ exn_msg e)])
       /\ (is_exception (exn_class_of e) = false ->
           fst (database_lifespan_enter env) = before ++ [Connect target]).
Proof.
  intros Hres Hconn. split; [|split].
  - unfold database_lifespan_enter.
    destruct (resolve_database_url env) as [ev r]. cbn [snd] in Hres. subst r.
    rewrite Hconn. reflexivity.
  - apply database_lifespan_enter_closes_nothing.
  - unfold database_lifespan_enter.
    destruct (resolve_database_url env) as [ev r]. cbn [snd] in Hres. subst r.
    rewrite Hconn. cbn [fst].
    exists (ev ++ [info (connecting_msg env)]).
    rewrite <- !app_assoc. cbn [app]. unfold connection_error.
    destruct (exn_class_of e); cbn; repeat split;
      intros; try reflexivity; try congruence; try discriminate.
Qed.

Lemma lifespan_connect_failure_witness :
  snd (database_lifespan_enter
         (D := scripted_driver (ConnectRaises (Exn CancelledError [])))
         [(lit "DATABASE_URL", lit "postgresql://db/app")])
  = Raise (Exn CancelledError [])
  /\ log_records
       (fst (database_lifespan_enter
               (D := scripted_driver (ConnectRaises (Exn CancelledError [])))
               [(lit "DATABASE_URL", lit "postgresql://db/app")]))
     = [{| log_level := INFO;
           log_msg := lit "Connecting to PostgreSQL database at None:None/None..." |}].
Proof.
  split; [|reflexivity].
  exact (proj1 (lifespan_connect_failure
                  (D := scripted_driver (ConnectRaises (Exn CancelledError [])))
                  [(lit "DATABASE_URL", lit "postgresql://db/app")]
                  (lit "postgresql://db/app")
                  (Exn CancelledError [])
                  eq_refl eq_refl)).
Defined.

(** What set-up does on the discrete path when it succeeds. *)
Lemma lifespan_discrete_success {D : Driver} (env : environ) (ctx : DatabaseContext) :
  (getenv env (lit "DATABASE_URL") = None
   \/ getenv env (lit "DATABASE_URL") = Some []) ->
  snd (database_lifespan_enter env) = Return ctx ->
  log_records (fst (database_lifespan_enter env))
  = [{| log_level := INFO;
        log_msg := lit "Constructed database URL from individual components" |};
     {| log_level := INFO; log_msg := connecting_msg env |};
     {| log_level := INFO;
        log_msg := 10003%N :: lit " Connected to PostgreSQL database successfully" |}].
Proof.
  intros Hurl. unfold database_lifespan_enter, resolve_database_url.
  destruct Hurl as [-> | ->];
    (destruct (getenv_default env (lit "DATABASE_PASSWORD") []) as [|c p];
     [discriminate|];
     cbn -[lit connecting_msg];
     destruct (pg_connect _) as [e | [s |]]; cbn -[lit connecting_msg];
     try discriminate; intros _; reflexivity).
Qed.

(** X19.  On the discrete path the log of a successful set-up does not
    depend on the password: two environments that differ in the password
    alone leave the same records. *)
Theorem lifespan_log_hides_password {D : Driver}
    (env1 env2 : environ) (ctx1 ctx2 : DatabaseContext) :
  (forall name, name <> lit "DATABASE_PASSWORD" -> getenv env1 name = getenv env2 name) ->
  (getenv env1 (lit "DATABASE_URL") = None
   \/ getenv env1 (lit "DATABASE_URL") = Some []) ->
  snd (database_lifespan_enter env1) = Return ctx1 ->
  snd (database_lifespan_enter env2) = Return ctx2 ->
  log_records (fst (database_lifespan_enter env1))
  = log_records (fst (database_lifespan_enter env2)).
Proof.
  intros Hsame Hurl H1 H2.
  destruct env_name_differs as [Hh [Hp [Hn [_ Hu]]]].
  assert (Hurl2 : getenv env2 (lit "DATABASE_URL") = None
                  \/ getenv env2 (lit "DATABASE_URL") = Some [])
    by (rewrite <- (Hsame _ Hu); exact Hurl).
  rewrite (lifespan_discrete_success env1 ctx1 Hurl H1).
  rewrite (lifespan_discrete_success env2 ctx2 Hurl2 H2).
  unfold connecting_msg.
  rewrite (Hsame _ Hh), (Hsame _ Hp), (Hsame _ Hn). reflexivity.
Qed.

Lemma lifespan_log_hides_password_witness :
  log_records (fst (database_lifespan_enter (D := scripted)
                      [(lit "DATABASE_PASSWORD", lit "one")]))
  = log_records (fst (database_lifespan_enter (D := scripted)
                        [(lit "DATABASE_PASSWORD", lit "another")])).
Proof.
  apply (lifespan_log_hides_password (D := scripted)
           [(lit "DATABASE_PASSWORD", lit "one")]
           [(lit "DATABASE_PASSWORD", lit "another")]
           {| conn := db (scripted_world []) |}
           {| conn := db (scripted_world []) |}).
  - intros name Hname. cbn [getenv].
    destruct (str_eqb (lit "DATABASE_PASSWORD") name) eqn:E; [|reflexivity].
    apply str_eqb_eq in E. congruence.
  - left. reflexivity.
  - reflexivity.
  - reflexivity.
Defined.

(** X20.  The whole life of the connection.  When set-up yields a
    context, the body runs with it and its outcome, a raised exception
    included, is the outcome of the whole; one connection was attempted
    and it is closed exactly once, after the attempt.  When set-up raises,
    the body does not run and nothing is closed. *)
Theorem lifespan_closes_what_it_opened {D : Driver}
    (env : environ) (body : DatabaseContext -> result unit) :
  (forall ctx,
      snd (database_lifespan_enter env) = Return ctx ->
      snd (database_lifespan env body) = body ctx
      /\ connects (fst (database_lifespan env body)) = 1
      /\ closes (fst (database_lifespan env body)) = 1
      /\ exists after,
           fst (database_lifespan env body)
           = fst (database_lifespan_enter env) ++ after
           /\ connects after = 0 /\ closes after = 1)
  /\ (forall e,
         snd (database_lifespan_enter env) = Raise e ->
         database_lifespan env body = (fst (database_lifespan_enter env), Raise e)
         /\ closes (fst (database_lifespan env body)) = 0).
Proof.
  pose proof (database_lifespan_enter_closes_nothing env) as Hclosed.
  split.
  - intros ctx Hctx.
    assert (Hone : connects (fst (database_lifespan_enter env)) = 1).
    { destruct (database_lifespan_enter_events env)
        as [[e [_ Hrun]] | [target [last [_ Hev]]]].
      - rewrite Hrun in Hctx. discriminate.
      - destruct (resolve_database_url_quiet env) as [Hc0 _].
        destruct Hev as [Hev [Hcl _]].
        rewrite Hev, !connects_app, Hc0, Hcl. reflexivity. }
    unfold database_lifespan.
    destruct (database_lifespan_enter env) as [ev r]. cbn [fst snd] in *. subst r.
    assert (Hexit : snd (database_lifespan_exit (body ctx)) = body ctx
                    /\ connects (fst (database_lifespan_exit (body ctx))) = 0
                    /\ closes (fst (database_lifespan_exit (body ctx))) = 1).
    { unfold database_lifespan_exit. destruct (body ctx) as [[] | e].
      - repeat split.
      - destruct (connection_error_counts e) as [Hce Hxe].
        cbn [fst snd]. rewrite connects_app, closes_app, Hce, Hxe.
        repeat split. }
    destruct (database_lifespan_exit (body ctx)) as [ev' r'].
    cbn [fst snd] in *. destruct Hexit as [-> [Hc' Hx']].
    rewrite connects_app, closes_app, Hone, Hclosed, Hc', Hx'.
    split; [reflexivity|]. split; [reflexivity|]. split; [reflexivity|].
    exists ev'. repeat split; assumption.
  - intros e He. unfold database_lifespan.
    destruct (database_lifespan_enter env) as [ev r]. cbn [fst snd] in *. subst r.
    split; [reflexivity|]. cbn [fst]. exact Hclosed.
Qed.

Lemma lifespan_closes_what_it_opened_witness :
  snd (database_lifespan (D := scripted)
         [(lit "DATABASE_URL", lit "postgresql://db/app")]
         (fun _ => Raise (Exn OtherError (lit "server stopped"))))
  = Raise (Exn OtherError (lit "server stopped"))
  /\ closes (fst (database_lifespan (D := scripted)
                    [(lit "DATABASE_URL", lit "postgresql://db/app")]
                    (fun _ => Raise (Exn OtherError (lit "server stopped")))))
     = 1.
Proof.
  destruct (proj1 (lifespan_closes_what_it_opened (D := scripted)
                     [(lit "DATABASE_URL", lit "postgresql://db/app")]
                     (fun _ => Raise (Exn OtherError (lit "server stopped"))))
              {| conn := db (scripted_world []) |} eq_refl)
    as [Hout [_ [Hclose _]]].
  split; [exact Hout | exact Hclose].
Defined.

(* ================================================================= *)
(** ** No decoration is left in the resolved target *)

Lemma suffixes_self (s : str) : In s (suffixes s).
Proof. destruct s; left; reflexivity. Qed.

Lemma suffixes_tail (s v : str) (c : N) : In (c :: v) (suffixes s) -> In v (suffixes s).
Proof.
  induction s as [|d t IH]; cbn [suffixes].
  - intros [H | []]. discriminate.
  - intros [H | H].
    + injection H as _ ->. right. apply suffixes_self.
    + right. apply IH. exact H.
Qed.

(** No end of the decoration begins a text that begins with the canonical
    scheme. *)
Lemma canonical_starts_no_suffix (v X : str) :
  In v (suffixes sqlalchemy_prefix) -> v <> [] ->
  startswith (canonical_prefix ++ X) v = false.
Proof.
  intros Hin Hne. cbn in Hin.
  repeat (destruct Hin as [<- | Hin]; [reflexivity|]).
  destruct Hin as [<- | []]. congruence.
Qed.

Lemma replace_copy (c : N) (t old new : str) :
  startswith (c :: t) old = false ->
  replace (c :: t) old new = c :: replace t old new.
Proof.
  intros Hno. unfold replace. cbn [replace_from]. rewrite Hno. reflexivity.
Qed.

(** What the result of the replacement begins with, the input began
    with. *)
Lemma replace_prefix_reflects (v : str) :
  In v (suffixes sqlalchemy_prefix) ->
  forall t,
    startswith (replace t sqlalchemy_prefix canonical_prefix) v = true ->
    startswith t v = true.
Proof.
  induction v as [|c v IH]; intros Hin t.
  - intros _. destruct t; reflexivity.
  - destruct t as [|d t]; [intros H; exact H|].
    destruct (startswith (d :: t) sqlalchemy_prefix) eqn:E.
    + apply startswith_iff in E as [rest ->].
      rewrite replace_head by discriminate.
      rewrite canonical_starts_no_suffix by (exact Hin || discriminate).
      discriminate.
    + rewrite replace_copy by exact E. cbn [startswith].
      rewrite !andb_true_iff. intros [Hd Hv]. split; [exact Hd|].
      apply IH; [eapply suffixes_tail; exact Hin | exact Hv].
Qed.

Lemma replace_never_starts (t : str) :
  startswith (replace t sqlalchemy_prefix canonical_prefix) sqlalchemy_prefix = false.
Proof.
  destruct (startswith (replace t sqlalchemy_prefix canonical_prefix)
              sqlalchemy_prefix) eqn:E; [|reflexivity].
  pose proof (replace_prefix_reflects sqlalchemy_prefix
                (suffixes_self _) t E) as Ht.
  apply startswith_iff in Ht as [rest ->].
  rewrite replace_head in E by discriminate.
  rewrite canonical_starts_no_suffix in E
    by (apply suffixes_self || discriminate).
  discriminate.
Qed.

Lemma contains_behind_canonical (X : str) :
  contains (canonical_prefix ++ X) sqlalchemy_prefix = contains X sqlalchemy_prefix.
Proof. reflexivity. Qed.

Lemma replace_leaves_none (s : str) :
  contains (replace s sqlalchemy_prefix canonical_prefix) sqlalchemy_prefix = false.
Proof.
  remember (List.length s) as n eqn:Hn. revert s Hn.
  induction n as [n IH] using lt_wf_ind. intros [|c t] Hn.
  - reflexivity.
  - destruct (startswith (c :: t) sqlalchemy_prefix) eqn:E.
    + apply startswith_iff in E as [rest Hs]. rewrite Hs.
      rewrite replace_head by discriminate.
      rewrite contains_behind_canonical.
      apply (IH (List.length rest)); [|reflexivity].
      rewrite Hn, Hs, length_app. cbn. lia.
    + pose proof (replace_never_starts (c :: t)) as Hhead.
      rewrite replace_copy in Hhead |- * by exact E.
      cbn [contains]. rewrite Hhead. cbn [orb].
      apply (IH (List.length t)); [|reflexivity].
      rewrite Hn. cbn. lia.
Qed.

(** X21.  The target resolved from a supplied connection string holds the
    decoration nowhere: every occurrence was rewritten and the rewriting
    creates none, so resolving the target once more changes nothing. *)
Theorem resolved_target_has_no_decoration (env : environ) (url : str) :
  getenv env (lit "DATABASE_URL") = Some url -> url <> [] ->
  exists target,
    resolve_database_url env = ([], Return target)
    /\ contains target (lit "postgresql+psycopg://") = false
    /\ replace target (lit "postgresql+psycopg://") (lit "postgresql://") = target.
Proof.
  intros Hurl Hne. exists (replace url sqlalchemy_prefix canonical_prefix).
  split; [apply resolve_database_url_supplied; assumption|].
  split; [apply replace_leaves_none|].
  apply replace_absent. apply replace_leaves_none.
Qed.

Lemma resolved_target_has_no_decoration_witness :
  exists target,
    resolve_database_url
      [(lit "DATABASE_URL", lit "postgresql+psycopg://db/postgresql+psycopg://")]
    = ([], Return target)
    /\ contains target (lit "postgresql+psycopg://") = false
    /\ replace target (lit "postgresql+psycopg://") (lit "postgresql://") = target.
Proof.
  apply (resolved_target_has_no_decoration
           [(lit "DATABASE_URL", lit "postgresql+psycopg://db/postgresql+psycopg://")]
           (lit "postgresql+psycopg://db/postgresql+psycopg://") eq_refl).
  discriminate.
Defined.

(* ================================================================= *)
(** ** The prompt for a table *)

(** X22.  [analyze_table] puts the table name into the prompt as it is,
    between two fixed texts: prompts for different names differ. *)
Theorem analyze_table_distinguishes (name1 name2 : str) :
  name1 <> name2 -> analyze_table name1 <> analyze_table name2.
Proof.
  unfold analyze_table. intros Hne Heq. apply Hne.
  apply app_inv_head in Heq. apply app_inv_tail in Heq. exact Heq.
Qed.

Lemma analyze_table_distinguishes_witness :
  lit "users" <> lit "staff"
  /\ analyze_table (lit "users") <> analyze_table (lit "staff").
Proof.
  assert (Hne : lit "users" <> lit "staff") by discriminate.
  split; [exact Hne|].
  exact (analyze_table_distinguishes (lit "users") (lit "staff") Hne).
Defined.
